(** * Constant-product AMM arithmetic of the DipCoin client: [SwapMath]

    A shallow embedding of the class [SwapMath] (utils/swap_math) and of the
    part of bignumber.js it calls, followed by the properties the
    specification states about it.

    The TypeScript code computes on [BigNumber] values of bignumber.js, which
    the repository never reconfigures: the library defaults are in force,
    [DECIMAL_PLACES = 20] and [ROUNDING_MODE = ROUND_HALF_UP].  A quotient
    [x.dividedBy(y)] and a root [x.sqrt()] are therefore rounded half-up to
    twenty decimal places before [integerValue(BigNumber.ROUND_DOWN)]
    truncates them.  The embedding keeps that intermediate rounding. *)

From Stdlib Require Import ZArith NArith Lia Bool Ascii String List.
Import ListNotations.

Local Open Scope Z_scope.

(** ** bignumber.js, the operations [SwapMath] uses *)

Module BigNumber.

(** A BigNumber is [NaN], [+Infinity] / [-Infinity], or a finite decimal
    [c * 10^(-dp)].  The library also distinguishes [-0] from [+0]; the
    two are identified here, which only matters for the sign of a quotient
    by zero, and every zero divisor met below is a [+0]. *)
Inductive t : Type :=
| NaN
| Infinity (negative : bool)
| Finite (c : Z) (dp : nat).

(** The two rounding modes the program uses, out of the library's nine. *)
Inductive RoundingMode : Type :=
| ROUND_DOWN       (* towards zero *)
| ROUND_HALF_UP.   (* to nearest, ties away from zero *)

(** Library configuration, left at its defaults by the repository. *)
Definition DECIMAL_PLACES : nat := 20.
Definition ROUNDING_MODE : RoundingMode := ROUND_HALF_UP.

Definition pow10 (n : nat) : Z := 10 ^ Z.of_nat n.

(** [new BigNumber(z)] for an integer [z]. *)
Definition ofZ (z : Z) : t := Finite z 0.

(** The coefficient of [c * 10^(-dp)] once written with [m >= dp] decimals. *)
Definition scaled (c : Z) (dp m : nat) : Z := c * pow10 (m - dp).

(** The integer nearest to [n / d] in mode [rm], for [d <> 0]. *)
Definition round_div (rm : RoundingMode) (n d : Z) : Z :=
  match rm with
  | ROUND_DOWN => Z.quot n d
  | ROUND_HALF_UP =>
      Z.sgn n * Z.sgn d * ((2 * Z.abs n + Z.abs d) / (2 * Z.abs d))
  end.

Definition isZero (x : t) : bool :=
  match x with
  | Finite c _ => c =? 0
  | _ => false
  end.

Definition isFinite (x : t) : bool :=
  match x with
  | Finite _ _ => true
  | _ => false
  end.

Definition isNegative (x : t) : bool :=
  match x with
  | Finite c _ => c <? 0
  | Infinity n => n
  | NaN => false
  end.

Definition negated (x : t) : t :=
  match x with
  | NaN => NaN
  | Infinity n => Infinity (negb n)
  | Finite c dp => Finite (- c) dp
  end.

(** [x.comparedTo(y)]: [null] (here [None]) as soon as one side is [NaN]. *)
Definition comparedTo (x y : t) : option comparison :=
  match x, y with
  | NaN, _ | _, NaN => None
  | Infinity n1, Infinity n2 =>
      Some (if Bool.eqb n1 n2 then Eq else if n1 then Lt else Gt)
  | Infinity n, Finite _ _ => Some (if n then Lt else Gt)
  | Finite _ _, Infinity n => Some (if n then Gt else Lt)
  | Finite c1 d1, Finite c2 d2 =>
      let m := Nat.max d1 d2 in
      Some (scaled c1 d1 m ?= scaled c2 d2 m)
  end.

Definition isGreaterThan (x y : t) : bool :=
  match comparedTo x y with
  | Some Gt => true
  | _ => false
  end.

Definition isLessThan (x y : t) : bool :=
  match comparedTo x y with
  | Some Lt => true
  | _ => false
  end.

Definition isLessThanOrEqualTo (x y : t) : bool :=
  match comparedTo x y with
  | Some Lt | Some Eq => true
  | _ => false
  end.

(** [x.plus(y)], exact. *)
Definition plus (x y : t) : t :=
  match x, y with
  | NaN, _ | _, NaN => NaN
  | Infinity n1, Infinity n2 => if Bool.eqb n1 n2 then Infinity n1 else NaN
  | Infinity n, Finite _ _ | Finite _ _, Infinity n => Infinity n
  | Finite c1 d1, Finite c2 d2 =>
      let m := Nat.max d1 d2 in
      Finite (scaled c1 d1 m + scaled c2 d2 m) m
  end.

(** [x.minus(y)], exact. *)
Definition minus (x y : t) : t := plus x (negated y).

(** [x.multipliedBy(y)], exact. *)
Definition multipliedBy (x y : t) : t :=
  match x, y with
  | NaN, _ | _, NaN => NaN
  | Infinity n1, Infinity n2 => Infinity (xorb n1 n2)
  | Infinity n, (Finite c _ as f) | (Finite c _ as f), Infinity n =>
      if c =? 0 then NaN else Infinity (xorb n (isNegative f))
  | Finite c1 d1, Finite c2 d2 => Finite (c1 * c2) (d1 + d2)
  end.

(** [x.dividedBy(y)]: the quotient rounded to [DECIMAL_PLACES] decimals in
    [ROUNDING_MODE]; [NaN] for 0/0 and Infinity/Infinity, an infinity for a
    non-zero dividend over zero. *)
Definition dividedBy (x y : t) : t :=
  match x, y with
  | NaN, _ | _, NaN => NaN
  | Infinity _, Infinity _ => NaN
  | Infinity n, Finite _ _ => Infinity (xorb n (isNegative y))
  | Finite _ _, Infinity _ => Finite 0 0
  | Finite c1 d1, Finite c2 d2 =>
      if c2 =? 0 then
        if c1 =? 0 then NaN else Infinity (c1 <? 0)
      else
        Finite (round_div ROUNDING_MODE
                  (c1 * pow10 (d2 + DECIMAL_PLACES)) (c2 * pow10 d1))
               DECIMAL_PLACES
  end.

(** [x.sqrt()]: the root rounded to [DECIMAL_PLACES] decimals in
    [ROUNDING_MODE].  For [v >= 0], the half-up rounding of
    [sqrt v * 10^20] is [floor ((floor (sqrt (4 * v * 10^40)) + 1) / 2)]. *)
Definition sqrt (x : t) : t :=
  match x with
  | NaN => NaN
  | Infinity n => if n then NaN else Infinity false
  | Finite c dp =>
      if c <? 0 then NaN
      else
        Finite ((Z.sqrt ((4 * c * pow10 (2 * DECIMAL_PLACES)) / pow10 dp) + 1) / 2)
               DECIMAL_PLACES
  end.

(** [x.integerValue(rm)]. *)
Definition integerValue (rm : RoundingMode) (x : t) : t :=
  match x with
  | Finite c dp => Finite (round_div rm c (pow10 dp)) 0
  | _ => x
  end.

End BigNumber.

#[warning="-notation-for-abbreviation"]
Notation BigNumber := BigNumber.t.

(** ** Failures: the [Error]s thrown by [SwapMath] *)

Inductive SwapMathError : Type :=
| DivisionByZero       (* "Division by zero" *)
| Overflow             (* "U64 overflow" *)
| OverLimit            (* "Over limit" *)
| InvalidFeeRate       (* "Invalid fee rate" *)
| ZeroAmount           (* "Zero amount" *)
| EmptyReserves        (* "Reserves empty" *)
| InvariantViolation.  (* "Incorrect swap" *)

Definition message (e : SwapMathError) : string :=
  match e with
  | DivisionByZero => "Division by zero"
  | Overflow => "U64 overflow"
  | OverLimit => "Over limit"
  | InvalidFeeRate => "Invalid fee rate"
  | ZeroAmount => "Zero amount"
  | EmptyReserves => "Reserves empty"
  | InvariantViolation => "Incorrect swap"
  end.

(** A call either returns a value or throws. *)
Inductive Result (A : Type) : Type :=
| Ok (a : A)
| Throw (e : SwapMathError).

Arguments Ok {A} a.
Arguments Throw {A} e.

Definition bind {A B : Type} (r : Result A) (k : A -> Result B) : Result B :=
  match r with
  | Ok a => k a
  | Throw e => Throw e
  end.

Notation "'let*' x ':=' r 'in' k" := (bind r (fun x => k))
  (at level 10, x name, r at level 100, k at level 200).

(** ** [SwapMath] *)

Module SwapMath.
Import BigNumber.

Definition MAX_FEE_RATE : BigNumber := ofZ 2000.
Definition FEE_SCALE : BigNumber := ofZ 10000.
Definition U64_MAX : BigNumber := ofZ 18446744073709551615.

Definition mulToU128 (x y : BigNumber) : BigNumber := multipliedBy x y.

Definition square (y : BigNumber) : BigNumber := sqrt y.

Definition mulDiv (x y z : BigNumber) : Result BigNumber :=
  if isZero z then Throw DivisionByZero
  else
    let result := integerValue ROUND_DOWN (dividedBy (multipliedBy x y) z) in
    if isGreaterThan result U64_MAX then Throw Overflow
    else Ok result.

Definition calcOptimalCoinValues
    (coinXDesired coinYDesired coinXReserve coinYReserve : BigNumber)
    : Result (BigNumber * BigNumber) :=
  if isZero coinXReserve && isZero coinYReserve then
    Ok (coinXDesired, coinYDesired)
  else
    let* coinYReturned := mulDiv coinXDesired coinYReserve coinXReserve in
    if isLessThanOrEqualTo coinYReturned coinYDesired then
      Ok (coinXDesired, coinYReturned)
    else
      let* coinXReturned := mulDiv coinYDesired coinXReserve coinYReserve in
      if isGreaterThan coinXReturned coinXDesired then Throw OverLimit
      else Ok (coinXReturned, coinYDesired).

Definition getFeeToTeam (feeRate coinIn : BigNumber) : Result BigNumber :=
  let* fee := mulDiv coinIn feeRate FEE_SCALE in
  Ok (integerValue ROUND_DOWN (dividedBy fee (ofZ 5))).

Definition getExpectedLiquidityAmount
    (optimalCoinX optimalCoinY coinXReserve coinYReserve lpSupply : BigNumber)
    : Result BigNumber :=
  if isZero coinXReserve && isZero coinYReserve && isZero lpSupply then
    let liquidityAmount :=
      minus (integerValue ROUND_DOWN
               (sqrt (multipliedBy optimalCoinX optimalCoinY)))
            (ofZ 1000) in
    if isGreaterThan liquidityAmount U64_MAX then Throw Overflow
    else Ok liquidityAmount
  else
    let xLiq :=
      integerValue ROUND_DOWN
        (dividedBy (multipliedBy lpSupply optimalCoinX) coinXReserve) in
    let yLiq :=
      integerValue ROUND_DOWN
        (dividedBy (multipliedBy lpSupply optimalCoinY) coinYReserve) in
    if isLessThan xLiq yLiq then
      if isGreaterThan xLiq U64_MAX then Throw Overflow else Ok xLiq
    else
      if isGreaterThan yLiq U64_MAX then Throw Overflow else Ok yLiq.

(** What [getAmountOut] writes with [console.log] (the value printed after
    the label): one line when the fee rate is zero, before any check.  The
    logged expression cannot throw and the return value does not depend on
    it. *)
Definition getAmountOut_console
    (feeRate amountIn reserveIn reserveOut : BigNumber) : list BigNumber :=
  if isZero feeRate then
    [integerValue ROUND_DOWN
       (dividedBy (multipliedBy reserveOut amountIn) (plus reserveIn amountIn))]
  else [].

Definition getAmountOut
    (feeRate amountIn reserveIn reserveOut : BigNumber) : Result BigNumber :=
  if isGreaterThan feeRate MAX_FEE_RATE then Throw InvalidFeeRate
  else if isZero amountIn then Throw ZeroAmount
  else if isZero reserveIn || isZero reserveOut then Throw EmptyReserves
  else
    let feeMultiplier := minus FEE_SCALE feeRate in
    let coinInValAfterFees := multipliedBy amountIn feeMultiplier in
    let newReserveIn :=
      plus (multipliedBy reserveIn FEE_SCALE) coinInValAfterFees in
    let numerator := multipliedBy coinInValAfterFees reserveOut in
    let amountOut :=
      integerValue ROUND_DOWN (dividedBy numerator newReserveIn) in
    if isGreaterThan amountOut U64_MAX then Throw Overflow
    else Ok amountOut.

Definition getAmountIn
    (feeRate amountOut reserveIn reserveOut : BigNumber) : Result BigNumber :=
  if isGreaterThan feeRate MAX_FEE_RATE then Throw InvalidFeeRate
  else if isZero amountOut then Throw ZeroAmount
  else if isZero reserveIn || isZero reserveOut then Throw EmptyReserves
  else
    let feeMultiplier := minus FEE_SCALE feeRate in
    let numerator :=
      multipliedBy (multipliedBy reserveIn amountOut) FEE_SCALE in
    let denominator :=
      multipliedBy (minus reserveOut amountOut) feeMultiplier in
    let amountIn :=
      plus (integerValue ROUND_DOWN (dividedBy numerator denominator))
           (ofZ 1) in
    if isGreaterThan amountIn U64_MAX then Throw Overflow
    else Ok amountIn.

Definition assertLpValueIsIncreased
    (oldReserveX oldReserveY newReserveX newReserveY : BigNumber)
    : Result unit :=
  if isGreaterThan (multipliedBy oldReserveX oldReserveY)
                   (multipliedBy newReserveX newReserveY)
  then Throw InvariantViolation
  else Ok tt.

End SwapMath.

(** ** utils: ordering of coin types, LP names, addresses

    JavaScript strings are modelled by [string], one character per UTF-16
    code unit (so code units below 256), and a [Uint8Array] by the list of
    its bytes.  Two library calls are modelled with the functions:
    [TextEncoder.encode], the UTF-8 encoding, and [bcs.ser("vector<u8>", _)],
    which writes the ULEB128 length and then the bytes into the BCS writer's
    buffer of 1024 bytes and throws when the buffer is too small. *)

Module Utils.

Definition EQUAL : Z := 0.
Definition LESS_THAN : Z := 1.
Definition GREATER_THAN : Z := 2.

Inductive UtilsError : Type :=
| SameTypes             (* "Type X and Type Y cannot be the same" *)
| BcsBufferTooSmall.    (* thrown by the BCS writer *)

Inductive Outcome (A : Type) : Type :=
| Returned (a : A)
| Raised (e : UtilsError).

Arguments Returned {A} a.
Arguments Raised {A} e.

Definition andThen {A B : Type} (r : Outcome A) (k : A -> Outcome B)
  : Outcome B :=
  match r with
  | Returned a => k a
  | Raised e => Raised e
  end.

(** [s.startsWith(prefix)]. *)
Definition startsWith (s prefix : string) : bool := String.prefix prefix s.

(** [s.slice(start, end)] for [0 <= start <= end]; [end] is clamped to the
    length. *)
Definition slice (s : string) (start end_ : nat) : string :=
  String.substring start (end_ - start) s.

(** [s.slice(start)]. *)
Definition sliceFrom (s : string) (start : nat) : string :=
  String.substring start (String.length s - start) s.

Definition normalizeAddress (address : string) : string :=
  let cleanAddress :=
    if startsWith address "BFC" then sliceFrom address 3 else address in
  String.append "0x" (slice cleanAddress 0 64).

(** The loop over the common prefix, then the comparison of the lengths. *)
Fixpoint compareByteArrays (bytesX bytesY : list N) : Z :=
  match bytesX, bytesY with
  | x :: restX, y :: restY =>
      if (x <? y)%N then LESS_THAN
      else if (y <? x)%N then GREATER_THAN
      else compareByteArrays restX restY
  | [], _ :: _ => LESS_THAN
  | _ :: _, [] => GREATER_THAN
  | [], [] => EQUAL
  end.

(** UTF-8 of one code unit below 256: one byte below 128, two bytes from
    there on. *)
Definition utf8 (c : N) : list N :=
  if (c <? 128)%N then [c] else [c / 64 + 192; c mod 64 + 128]%N.

(** [new TextEncoder().encode(s)]. *)
Fixpoint TextEncoder_encode (s : string) : list N :=
  match s with
  | EmptyString => []
  | String c rest => utf8 (N_of_ascii c) ++ TextEncoder_encode rest
  end.

(** The loop of the library's [ulebEncode]: seven bits per byte, low bits
    first, the top bit set on every byte but the last. *)
Fixpoint ulebEncode_loop (fuel : nat) (num : N) : list N :=
  match fuel with
  | O => []
  | S fuel' =>
      if (num =? 0)%N then []
      else
        let low := N.land num 127 in
        let num' := N.shiftr num 7 in
        if (num' =? 0)%N then [low]
        else N.lor low 128 :: ulebEncode_loop fuel' num'
  end.

Definition ulebEncode (num : N) : list N :=
  if (num =? 0)%N then [0%N]
  else ulebEncode_loop (N.to_nat (N.size num)) num.

(** Size of the buffer a BCS writer is created with. *)
Definition BCS_WRITER_SIZE : nat := 1024.

(** [bcs.ser("vector<u8>", data).toBytes()]. *)
Definition bcs_ser_vector_u8 (data : list N) : Outcome (list N) :=
  let written := ulebEncode (N.of_nat (length data)) ++ data in
  if (BCS_WRITER_SIZE <? length written)%nat then Raised BcsBufferTooSmall
  else Returned written.

Definition serializeTypeName (typeName : string) : Outcome (list N) :=
  let bytes := TextEncoder_encode typeName in
  bcs_ser_vector_u8 bytes.

Definition isSortedTypes (typeX typeY : string) : Outcome bool :=
  if String.eqb typeX typeY then Raised SameTypes
  else
    andThen (serializeTypeName typeX) (fun serializedX =>
    andThen (serializeTypeName typeY) (fun serializedY =>
    Returned (compareByteArrays serializedX serializedY =? LESS_THAN))).

Definition orderType (typeX typeY : string) : Outcome (string * string) :=
  andThen (isSortedTypes typeX typeY) (fun sorted =>
  Returned (if sorted then (typeX, typeY) else (typeY, typeX))).



End Utils.

Import BigNumber SwapMath.

(** ** Vocabulary of the specification *)

(** An amount, a reserve, a fee rate or an LP supply of the data model: an
    unsigned 64-bit integer. *)
Definition u64 (x : Z) : Prop := 0 <= x <= 18446744073709551615.

(** [10^20], one unit in the last decimal place the library keeps. *)
Definition E20 : Z := 100000000000000000000.

(** The integer [x.dividedBy(y).integerValue(ROUND_DOWN)] for integers [x], [y]
    with [y <> 0]: the quotient rounded half-up to twenty decimals, then
    truncated. *)
Definition div20 (a b : Z) : Z :=
  Z.quot (round_div ROUND_HALF_UP (a * E20) b) E20.

(** The integer [x.sqrt().integerValue(ROUND_DOWN)] for an integer [x >= 0]. *)
Definition sqrt20 (a : Z) : Z :=
  Z.quot ((Z.sqrt (4 * a * (E20 * E20)) + 1) / 2) E20.

(** The ULEB128 bytes of a length below 16384: one byte below 128, two
    bytes from there on. *)
Definition uleb_short (n : N) : list N :=
  if (n <? 128)%N then [n] else [n mod 128 + 128; n / 128]%N.

(** A name made of 7-bit characters only. *)
Fixpoint is7bit (s : string) : bool :=
  match s with
  | EmptyString => true
  | String c rest => (N_of_ascii c <? 128)%N && is7bit rest
  end.

(** ** Arithmetic of the rounded quotient *)

Section Div20.

Variables a b : Z.
Hypothesis Ha : 0 <= a.
Hypothesis Hb : 0 < b.

Lemma div20_pos_eq : div20 a b = ((2 * (a * E20) + b) / (2 * b)) / E20.
Proof.
  unfold div20, round_div.
  assert (HE : 0 <= a * E20) by (unfold E20; lia).
  rewrite (Z.abs_eq (a * E20)) by exact HE.
  rewrite (Z.abs_eq b) by lia.
  rewrite (Z.sgn_pos b) by lia.
  assert (Hq : 0 <= (2 * (a * E20) + b) / (2 * b))
    by (apply Z.div_pos; lia).
  destruct (Z.eq_dec a 0) as [->|Hne].
  - simpl (0 * E20). simpl (2 * 0 + b). rewrite Z.div_small by lia.
    reflexivity.
  - rewrite (Z.sgn_pos (a * E20)) by (unfold E20; lia).
    rewrite !Z.mul_1_l.
    apply Z.quot_div_nonneg; [exact Hq | reflexivity].
Qed.

(** The rounded quotient overshoots [a / b] by at most [b / (2 * 10^20)]. *)
Lemma div20_gap : 2 * E20 * (div20 a b * b - a) <= b.
Proof.
  rewrite div20_pos_eq.
  set (R := (2 * (a * E20) + b) / (2 * b)).
  assert (HR : 2 * b * R <= 2 * (a * E20) + b)
    by (apply Z.mul_div_le; lia).
  assert (HR0 : 0 <= R) by (apply Z.div_pos; unfold E20; lia).
  assert (HO : E20 * (R / E20) <= R)
    by (apply Z.mul_div_le; unfold E20; lia).
  assert (HM : 2 * b * (E20 * (R / E20)) <= 2 * b * R)
    by (apply Z.mul_le_mono_nonneg_l; lia).
  lia.
Qed.

Lemma div20_lower : a / b <= div20 a b.
Proof.
  rewrite div20_pos_eq.
  apply Z.div_le_lower_bound; [unfold E20; lia|].
  apply Z.div_le_lower_bound; [lia|].
  assert (Hq : b * (a / b) <= a) by (apply Z.mul_div_le; lia).
  assert (HM : E20 * (b * (a / b)) <= E20 * a)
    by (apply Z.mul_le_mono_nonneg_l; [unfold E20|]; lia).
  lia.
Qed.

Lemma div20_nonneg : 0 <= div20 a b.
Proof.
  pose proof div20_lower. assert (0 <= a / b) by (apply Z.div_pos; lia). lia.
Qed.

(** No overshoot past an integer bound on the exact quotient. *)
Lemma div20_le_bound (q : Z) : a <= q * b -> div20 a b <= q.
Proof.
  intros Hq. pose proof div20_gap as G. unfold E20 in G.
  destruct (Z_le_gt_dec (div20 a b) q) as [|Hgt]; [assumption|exfalso].
  assert (b <= div20 a b * b - a) by nia.
  nia.
Qed.

(** Below [2 * 10^20] the divisor is too small for the rounding to reach
    the next integer: the result is the floor. *)
Lemma div20_exact : b < 2 * E20 -> div20 a b = a / b.
Proof.
  intros Hlt. pose proof div20_gap as G. pose proof div20_lower as L.
  pose proof div20_nonneg as N.
  assert (Hle : div20 a b * b <= a) by (unfold E20 in *; nia).
  assert (div20 a b <= a / b)
    by (apply Z.div_le_lower_bound; lia).
  lia.
Qed.

End Div20.

(** ** The library operations on integers *)

Lemma plus_ofZ (a b : Z) : plus (ofZ a) (ofZ b) = ofZ (a + b).
Proof. unfold plus, ofZ, scaled, pow10. simpl. f_equal. lia. Qed.

Lemma minus_ofZ (a b : Z) : minus (ofZ a) (ofZ b) = ofZ (a - b).
Proof. unfold minus, negated, ofZ. fold (ofZ a) (ofZ (- b)). now rewrite plus_ofZ. Qed.

Lemma multipliedBy_ofZ (a b : Z) : multipliedBy (ofZ a) (ofZ b) = ofZ (a * b).
Proof. reflexivity. Qed.

Lemma isZero_ofZ (a : Z) : isZero (ofZ a) = (a =? 0).
Proof. reflexivity. Qed.

Lemma comparedTo_ofZ (a b : Z) : comparedTo (ofZ a) (ofZ b) = Some (a ?= b).
Proof.
  unfold comparedTo, ofZ, scaled, pow10. simpl.
  now rewrite !Z.mul_1_r.
Qed.

Lemma isGreaterThan_ofZ (a b : Z) : isGreaterThan (ofZ a) (ofZ b) = (b <? a).
Proof.
  unfold isGreaterThan. rewrite comparedTo_ofZ, Z.ltb_antisym, Z.leb_compare.
  now destruct (a ?= b).
Qed.

Lemma isLessThan_ofZ (a b : Z) : isLessThan (ofZ a) (ofZ b) = (a <? b).
Proof.
  unfold isLessThan. rewrite comparedTo_ofZ. unfold Z.ltb.
  now destruct (a ?= b).
Qed.

Lemma isLessThanOrEqualTo_ofZ (a b : Z) :
  isLessThanOrEqualTo (ofZ a) (ofZ b) = (a <=? b).
Proof.
  unfold isLessThanOrEqualTo. rewrite comparedTo_ofZ, Z.leb_compare.
  now destruct (a ?= b).
Qed.

Lemma dividedBy_ofZ (a b : Z) :
  b <> 0 ->
  dividedBy (ofZ a) (ofZ b) = Finite (round_div ROUND_HALF_UP (a * E20) b) 20.
Proof.
  intros Hb. unfold dividedBy, ofZ.
  destruct (Z.eqb_spec b 0) as [|_]; [contradiction|].
  change (pow10 (0 + DECIMAL_PLACES)) with E20.
  change (pow10 0) with 1. now rewrite Z.mul_1_r.
Qed.

Lemma idiv_ofZ (a b : Z) :
  b <> 0 ->
  integerValue ROUND_DOWN (dividedBy (ofZ a) (ofZ b)) = ofZ (div20 a b).
Proof. intros Hb. now rewrite dividedBy_ofZ. Qed.

Lemma isqrt_ofZ (a : Z) :
  0 <= a ->
  integerValue ROUND_DOWN (sqrt (ofZ a)) = ofZ (sqrt20 a).
Proof.
  intros Ha. unfold sqrt, ofZ.
  destruct (Z.ltb_spec a 0) as [|_]; [lia|].
  unfold integerValue, round_div, sqrt20.
  change (pow10 (2 * DECIMAL_PLACES)) with (E20 * E20).
  change (pow10 0) with 1. change (pow10 DECIMAL_PLACES) with E20.
  now rewrite Z.div_1_r.
Qed.

Create Rewrite HintDb bn.
#[local] Hint Rewrite plus_ofZ minus_ofZ multipliedBy_ofZ isZero_ofZ
  isGreaterThan_ofZ isLessThan_ofZ isLessThanOrEqualTo_ofZ : bn.

(** ** The functions of [SwapMath] on integers *)

Lemma mulDiv_ofZ (x y z : Z) :
  z <> 0 ->
  mulDiv (ofZ x) (ofZ y) (ofZ z) =
  if 18446744073709551615 <? div20 (x * y) z then Throw Overflow
  else Ok (ofZ (div20 (x * y) z)).
Proof.
  intros Hz. unfold mulDiv, U64_MAX. autorewrite with bn.
  destruct (Z.eqb_spec z 0) as [|_]; [contradiction|].
  rewrite idiv_ofZ by assumption. now autorewrite with bn.
Qed.

Lemma mulDiv_zero (x y z : BigNumber) :
  isZero z = true -> mulDiv x y z = Throw DivisionByZero.
Proof. intros Hz. unfold mulDiv. now rewrite Hz. Qed.

Lemma getAmountOut_ofZ (feeRate amountIn reserveIn reserveOut : Z) :
  feeRate <= 2000 -> amountIn <> 0 -> reserveIn <> 0 -> reserveOut <> 0 ->
  reserveIn * 10000 + amountIn * (10000 - feeRate) <> 0 ->
  getAmountOut (ofZ feeRate) (ofZ amountIn) (ofZ reserveIn) (ofZ reserveOut) =
  let amountOut :=
    div20 (amountIn * (10000 - feeRate) * reserveOut)
          (reserveIn * 10000 + amountIn * (10000 - feeRate)) in
  if 18446744073709551615 <? amountOut then Throw Overflow
  else Ok (ofZ amountOut).
Proof.
  intros Hf Ha Hi Ho Hd.
  unfold getAmountOut, MAX_FEE_RATE, FEE_SCALE, U64_MAX. autorewrite with bn.
  destruct (Z.ltb_spec 2000 feeRate) as [|_]; [lia|].
  destruct (Z.eqb_spec amountIn 0) as [|_]; [contradiction|].
  destruct (Z.eqb_spec reserveIn 0) as [|_]; [contradiction|].
  destruct (Z.eqb_spec reserveOut 0) as [|_]; [contradiction|].
  cbn [orb]. rewrite idiv_ofZ by assumption.
  now autorewrite with bn.
Qed.

Lemma getAmountIn_ofZ (feeRate amountOut reserveIn reserveOut : Z) :
  feeRate <= 2000 -> amountOut <> 0 -> reserveIn <> 0 -> reserveOut <> 0 ->
  (reserveOut - amountOut) * (10000 - feeRate) <> 0 ->
  getAmountIn (ofZ feeRate) (ofZ amountOut) (ofZ reserveIn) (ofZ reserveOut) =
  let amountIn :=
    div20 (reserveIn * amountOut * 10000)
          ((reserveOut - amountOut) * (10000 - feeRate)) + 1 in
  if 18446744073709551615 <? amountIn then Throw Overflow
  else Ok (ofZ amountIn).
Proof.
  intros Hf Ha Hi Ho Hd.
  unfold getAmountIn, MAX_FEE_RATE, FEE_SCALE, U64_MAX. autorewrite with bn.
  destruct (Z.ltb_spec 2000 feeRate) as [|_]; [lia|].
  destruct (Z.eqb_spec amountOut 0) as [|_]; [contradiction|].
  destruct (Z.eqb_spec reserveIn 0) as [|_]; [contradiction|].
  destruct (Z.eqb_spec reserveOut 0) as [|_]; [contradiction|].
  cbn [orb]. rewrite idiv_ofZ by assumption.
  now autorewrite with bn.
Qed.

Lemma assertLpValueIsIncreased_ofZ (ox oy nx ny : Z) :
  assertLpValueIsIncreased (ofZ ox) (ofZ oy) (ofZ nx) (ofZ ny) =
  if nx * ny <? ox * oy then Throw InvariantViolation else Ok tt.
Proof. unfold assertLpValueIsIncreased. now autorewrite with bn. Qed.

(** ** Arithmetic of a swap on 64-bit amounts *)

Section SwapArith.

Variables feeRate amountIn reserveIn reserveOut : Z.
Hypothesis Hfee : 0 <= feeRate <= 2000.
Hypothesis HamountIn : 0 < amountIn <= 18446744073709551615.
Hypothesis HreserveIn : 0 < reserveIn <= 18446744073709551615.
Hypothesis HreserveOut : 0 < reserveOut <= 18446744073709551615.

#[local, warning="-notation-for-abbreviation"]
Notation N := (amountIn * (10000 - feeRate) * reserveOut).
#[local, warning="-notation-for-abbreviation"]
Notation D := (reserveIn * 10000 + amountIn * (10000 - feeRate)).
#[local, warning="-notation-for-abbreviation"]
Notation out := (div20 N D).

Local Lemma swap_D_range : 0 < D <= 368934881474191032300000.
Proof. nia. Qed.

Local Lemma swap_N_nonneg : 0 <= N.
Proof. nia. Qed.

Local Lemma swap_gap : 2 * E20 * (out * D - N) <= D.
Proof.
  apply div20_gap; [apply swap_N_nonneg | apply swap_D_range].
Qed.

Local Lemma swap_out_nonneg : 0 <= out.
Proof. apply div20_nonneg; [apply swap_N_nonneg | apply swap_D_range]. Qed.

(** The output stays strictly below the output reserve, rounding included. *)
Lemma swap_out_lt_reserve : out < reserveOut.
Proof.
  pose proof swap_D_range as HD. pose proof swap_N_nonneg as HN.
  assert (Hle : out <= reserveOut).
  { apply div20_le_bound; nia. }
  destruct (Z.eq_dec out reserveOut) as [Heq|]; [exfalso|lia].
  pose proof swap_gap as G. rewrite Heq in G.
  assert (Hk : reserveOut * D - N = 10000 * (reserveOut * reserveIn))
    by ring.
  rewrite Hk in G.
  assert (1 * reserveIn <= reserveOut * reserveIn)
    by (apply Z.mul_le_mono_nonneg_r; lia).
  assert (amountIn * (10000 - feeRate) <= amountIn * 10000)
    by (apply Z.mul_le_mono_nonneg_l; lia).
  assert (D <= 10000 * reserveIn + 10000 * amountIn) by lia.
  unfold E20 in G. lia.
Qed.

(** The constant product does not decrease, rounding included. *)
Lemma swap_invariant : out * (reserveIn + amountIn) <= amountIn * reserveOut.
Proof.
  pose proof swap_D_range as HD. pose proof swap_N_nonneg as HN.
  pose proof swap_out_nonneg as HO. pose proof swap_out_lt_reserve as HL.
  set (k := out * D - N).
  set (P := out * reserveIn).
  assert (HP : 0 <= P) by (apply Z.mul_nonneg_nonneg; lia).
  assert (Haf : 0 <= amountIn * (10000 - feeRate))
    by (apply Z.mul_nonneg_nonneg; lia).
  assert (Hid : amountIn * (10000 - feeRate) * (reserveOut - out) = 10000 * P - k)
    by (unfold k, P; ring).
  assert (Hkey : k <= P * feeRate).
  { destruct (Z_le_gt_dec k 0) as [|Hk].
    { assert (0 <= P * feeRate) by (apply Z.mul_nonneg_nonneg; lia). lia. }
    assert (Hout : 1 <= out).
    { destruct (Z.eq_dec out 0) as [H0|]; [|lia].
      exfalso. unfold k in Hk. rewrite H0 in Hk. lia. }
    assert (HP1 : reserveIn * 1 <= reserveIn * out)
      by (apply Z.mul_le_mono_nonneg_l; lia).
    assert (HP2 : reserveIn <= P) by (unfold P; lia).
    pose proof swap_gap as G. fold k in G. unfold E20 in G.
    destruct (Z.eq_dec feeRate 0) as [Hf0|Hf].
    - exfalso.
      assert (Hk' : k = 10000 * (out * (reserveIn + amountIn) - amountIn * reserveOut))
        by (unfold k; rewrite Hf0; ring).
      assert (D = 10000 * (reserveIn + amountIn)) by (rewrite Hf0; ring).
      lia.
    - destruct (Z_le_gt_dec k (P * feeRate)) as [|Hgt]; [assumption|exfalso].
      assert (Hf1 : P * 1 <= P * feeRate)
        by (apply Z.mul_le_mono_nonneg_l; lia).
      assert (Ha : amountIn * (10000 - feeRate) * 1
                   <= amountIn * (10000 - feeRate) * (reserveOut - out))
        by (apply Z.mul_le_mono_nonneg_l; lia).
      assert (HD' : D <= 10000 * reserveIn + 10000 * P - P * feeRate - 1)
        by lia.
      lia. }
  assert (Hmul : (10000 - feeRate) * (out * (reserveIn + amountIn))
                 <= (10000 - feeRate) * (amountIn * reserveOut)).
  { replace ((10000 - feeRate) * (out * (reserveIn + amountIn)))
      with (out * D - P * feeRate) by (unfold P; ring).
    replace ((10000 - feeRate) * (amountIn * reserveOut)) with N
      by ring.
    fold k. lia. }
  apply Z.mul_le_mono_pos_l in Hmul; lia.
Qed.

(** Asking back for [out] costs at most one unit more than [amountIn]. *)
Lemma swap_round_trip :
  0 < out ->
  0 <= div20 (reserveIn * out * 10000) ((reserveOut - out) * (10000 - feeRate))
    <= amountIn.
Proof.
  intros Hout.
  pose proof swap_D_range as HD. pose proof swap_out_lt_reserve as HL.
  set (k := out * D - N).
  set (den := (reserveOut - out) * (10000 - feeRate)).
  set (num := reserveIn * out * 10000).
  assert (Hden : 8000 * 1 <= (10000 - feeRate) * (reserveOut - out)).
  { transitivity ((10000 - feeRate) * 1); [lia|].
    apply Z.mul_le_mono_nonneg_l; lia. }
  assert (Hden' : 8000 <= den) by (unfold den; lia).
  assert (Hnum : 0 <= num)
    by (unfold num; repeat apply Z.mul_nonneg_nonneg; lia).
  assert (Hid : num = amountIn * den + k) by (unfold num, den, k; ring).
  split; [apply div20_nonneg; lia|].
  set (o2 := div20 num den).
  destruct (Z_le_gt_dec o2 amountIn) as [|Hgt]; [assumption|exfalso].
  assert (Hm : (amountIn + 1) * den <= o2 * den)
    by (apply Z.mul_le_mono_nonneg_r; lia).
  pose proof (div20_gap num den Hnum ltac:(lia)) as G2. fold o2 in G2.
  pose proof swap_gap as G. fold k in G. unfold E20 in G, G2.
  lia.
Qed.

End SwapArith.

(** ** [getAmountOut] and [getAmountIn] *)

(** On valid 64-bit inputs [getAmountOut] returns, and what it returns is the
    rounded quotient, a value below the output reserve. *)
Lemma getAmountOut_returns (feeRate amountIn reserveIn reserveOut : Z) :
  u64 feeRate -> u64 amountIn -> u64 reserveIn -> u64 reserveOut ->
  feeRate <= 2000 -> 0 < amountIn -> 0 < reserveIn -> 0 < reserveOut ->
  getAmountOut (ofZ feeRate) (ofZ amountIn) (ofZ reserveIn) (ofZ reserveOut) =
  Ok (ofZ (div20 (amountIn * (10000 - feeRate) * reserveOut)
                 (reserveIn * 10000 + amountIn * (10000 - feeRate)))).
Proof.
  unfold u64. intros Uf Ua Ui Uo Hf Ha Hi Ho.
  pose proof (swap_D_range feeRate amountIn reserveIn reserveOut
                ltac:(lia) ltac:(lia) ltac:(lia) ltac:(lia)) as HD.
  pose proof (swap_out_lt_reserve feeRate amountIn reserveIn reserveOut
                ltac:(lia) ltac:(lia) ltac:(lia) ltac:(lia)) as HL.
  rewrite getAmountOut_ofZ by lia. cbv zeta.
  destruct (Z.ltb_spec 18446744073709551615
              (div20 (amountIn * (10000 - feeRate) * reserveOut)
                     (reserveIn * 10000 + amountIn * (10000 - feeRate))))
    as [Hov|_]; [lia|reflexivity].
Qed.

(** C1. For every valid swap input (64-bit amounts, feeRate <= 2000,
    amountIn > 0, both reserves > 0) for which [getAmountOut] returns
    [amountOut], the constant product does not decrease:
    reserveIn * reserveOut <= (reserveIn + amountIn) * (reserveOut - amountOut),
    and [assertLpValueIsIncreased] on the reserves before and after the swap
    does not fail. *)
Theorem getAmountOut_constant_product_nondecreasing
    (feeRate amountIn reserveIn reserveOut : Z) (amountOut : BigNumber) :
  u64 feeRate -> u64 amountIn -> u64 reserveIn -> u64 reserveOut ->
  feeRate <= 2000 -> 0 < amountIn -> 0 < reserveIn -> 0 < reserveOut ->
  getAmountOut (ofZ feeRate) (ofZ amountIn) (ofZ reserveIn) (ofZ reserveOut)
    = Ok amountOut ->
  exists out : Z,
    amountOut = ofZ out /\
    reserveIn * reserveOut <= (reserveIn + amountIn) * (reserveOut - out) /\
    assertLpValueIsIncreased
      (ofZ reserveIn) (ofZ reserveOut)
      (plus (ofZ reserveIn) (ofZ amountIn)) (minus (ofZ reserveOut) amountOut)
    = Ok tt.
Proof.
  intros Uf Ua Ui Uo Hf Ha Hi Ho Hret.
  rewrite getAmountOut_returns in Hret by assumption.
  assert (Heq : amountOut
                = ofZ (div20 (amountIn * (10000 - feeRate) * reserveOut)
                         (reserveIn * 10000 + amountIn * (10000 - feeRate))))
    by congruence.
  clear Hret. subst amountOut. unfold u64 in *.
  pose proof (swap_invariant feeRate amountIn reserveIn reserveOut
                ltac:(lia) ltac:(lia) ltac:(lia) ltac:(lia)) as Hinv.
  set (out := div20 _ _) in *.
  assert (Hk : reserveIn * reserveOut
               <= (reserveIn + amountIn) * (reserveOut - out)).
  { replace ((reserveIn + amountIn) * (reserveOut - out))
      with (reserveIn * reserveOut
            + (amountIn * reserveOut - out * (reserveIn + amountIn))) by ring.
    lia. }
  exists out. split; [reflexivity|]. split; [exact Hk|].
  rewrite plus_ofZ, minus_ofZ, assertLpValueIsIncreased_ofZ.
  destruct (Z.ltb_spec ((reserveIn + amountIn) * (reserveOut - out))
                       (reserveIn * reserveOut)); [lia|reflexivity].
Qed.

Lemma getAmountOut_constant_product_nondecreasing_witness :
  u64 30 /\ u64 1000 /\ u64 1000000 /\ u64 2000000 /\
  exists out : Z,
    ofZ 1992 = ofZ out /\
    1000000 * 2000000 <= (1000000 + 1000) * (2000000 - out) /\
    assertLpValueIsIncreased
      (ofZ 1000000) (ofZ 2000000)
      (plus (ofZ 1000000) (ofZ 1000)) (minus (ofZ 2000000) (ofZ 1992))
    = Ok tt.
Proof.
  assert (H30 : u64 30) by (unfold u64; lia).
  assert (H1000 : u64 1000) by (unfold u64; lia).
  assert (H1e6 : u64 1000000) by (unfold u64; lia).
  assert (H2e6 : u64 2000000) by (unfold u64; lia).
  repeat (split; [assumption|]).
  apply (getAmountOut_constant_product_nondecreasing
           30 1000 1000000 2000000 (ofZ 1992)); try assumption; try lia.
  reflexivity.
Defined.

(** The 64-bit bound of the data model is used: beyond it the half-up
    rounding of [dividedBy] can push the output past the exact quotient far
    enough to lower the product.  With reserves of 2 * 10^20 - 1 and no fee,
    1 unit in gives 1 unit out and the guard rejects the swap. *)
Remark constant_product_beyond_u64 :
  getAmountOut (ofZ 0) (ofZ 1)
    (ofZ 199999999999999999999) (ofZ 199999999999999999999) = Ok (ofZ 1) /\
  assertLpValueIsIncreased
    (ofZ 199999999999999999999) (ofZ 199999999999999999999)
    (plus (ofZ 199999999999999999999) (ofZ 1))
    (minus (ofZ 199999999999999999999) (ofZ 1))
  = Throw InvariantViolation.
Proof. split; reflexivity. Qed.

(** C2, as the specification states it, fails: when the quotient in
    [getAmountOut] is exact, [getAmountIn] asks for one unit more than was
    paid.  Here 1 unit buys 1 unit, and buying 1 unit costs 2. *)
Lemma round_trip_exceeds_amountIn :
  u64 0 /\ u64 1 /\ u64 2 /\
  getAmountOut (ofZ 0) (ofZ 1) (ofZ 1) (ofZ 2) = Ok (ofZ 1) /\
  getAmountIn (ofZ 0) (ofZ 1) (ofZ 1) (ofZ 2) = Ok (ofZ 2) /\
  ~ 2 <= 1.
Proof.
  unfold u64. repeat (split; [lia|]).
  split; [reflexivity|]. split; [reflexivity|lia].
Qed.

(** C2, amended. For every valid input (64-bit amounts, feeRate <= 2000,
    all three amounts > 0), if [getAmountOut] returns amountOut > 0, then
    [getAmountIn] on that amountOut computes a value r with
    1 <= r <= amountIn + 1; it returns r, unless r exceeds U64_MAX, in which
    case it fails with Overflow. *)
Theorem getAmountIn_round_trip_within_one
    (feeRate amountIn reserveIn reserveOut out : Z) :
  u64 feeRate -> u64 amountIn -> u64 reserveIn -> u64 reserveOut ->
  feeRate <= 2000 -> 0 < amountIn -> 0 < reserveIn -> 0 < reserveOut ->
  getAmountOut (ofZ feeRate) (ofZ amountIn) (ofZ reserveIn) (ofZ reserveOut)
    = Ok (ofZ out) ->
  0 < out ->
  exists r : Z,
    1 <= r <= amountIn + 1 /\
    getAmountIn (ofZ feeRate) (ofZ out) (ofZ reserveIn) (ofZ reserveOut) =
    if 18446744073709551615 <? r then Throw Overflow else Ok (ofZ r).
Proof.
  intros Uf Ua Ui Uo Hf Ha Hi Ho Hret Hout.
  rewrite getAmountOut_returns in Hret by assumption.
  assert (Heq : div20 (amountIn * (10000 - feeRate) * reserveOut)
                  (reserveIn * 10000 + amountIn * (10000 - feeRate)) = out)
    by (unfold ofZ in Hret; congruence).
  clear Hret. unfold u64 in *.
  pose proof (swap_out_lt_reserve feeRate amountIn reserveIn reserveOut
                ltac:(lia) ltac:(lia) ltac:(lia) ltac:(lia)) as HL.
  pose proof (swap_round_trip feeRate amountIn reserveIn reserveOut
                ltac:(lia) ltac:(lia) ltac:(lia) ltac:(lia)) as HR.
  rewrite Heq in HL, HR. specialize (HR Hout).
  exists (div20 (reserveIn * out * 10000)
                ((reserveOut - out) * (10000 - feeRate)) + 1).
  split; [lia|].
  apply getAmountIn_ofZ; try lia.
  apply Z.neq_mul_0; lia.
Qed.

Lemma getAmountIn_round_trip_within_one_witness :
  u64 30 /\ u64 1000 /\ u64 1000000 /\ u64 2000000 /\
  exists r : Z,
    1 <= r <= 1000 + 1 /\
    getAmountIn (ofZ 30) (ofZ 1992) (ofZ 1000000) (ofZ 2000000) =
    if 18446744073709551615 <? r then Throw Overflow else Ok (ofZ r).
Proof.
  assert (H30 : u64 30) by (unfold u64; lia).
  assert (H1000 : u64 1000) by (unfold u64; lia).
  assert (H1e6 : u64 1000000) by (unfold u64; lia).
  assert (H2e6 : u64 2000000) by (unfold u64; lia).
  repeat (split; [assumption|]).
  apply (getAmountIn_round_trip_within_one 30 1000 1000000 2000000 1992);
    try assumption; try lia.
  reflexivity.
Defined.

(** While the divisor [reserveIn * 10000 + amountIn * (10000 - feeRate)]
    stays below [2 * 10^20], [getAmountOut] is the floor of the exact
    quotient. *)
Lemma getAmountOut_floor_small_divisor
    (feeRate amountIn reserveIn reserveOut : Z) :
  u64 feeRate -> u64 amountIn -> u64 reserveIn -> u64 reserveOut ->
  feeRate <= 2000 -> 0 < amountIn -> 0 < reserveIn -> 0 < reserveOut ->
  reserveIn * 10000 + amountIn * (10000 - feeRate) < 2 * E20 ->
  getAmountOut (ofZ feeRate) (ofZ amountIn) (ofZ reserveIn) (ofZ reserveOut) =
  Ok (ofZ ((amountIn * (10000 - feeRate) * reserveOut)
           / (reserveIn * 10000 + amountIn * (10000 - feeRate)))).
Proof.
  intros Uf Ua Ui Uo Hf Ha Hi Ho Hsmall.
  rewrite getAmountOut_returns by assumption.
  unfold u64 in *.
  rewrite div20_exact; [reflexivity| | |assumption].
  - apply (swap_N_nonneg feeRate amountIn reserveIn reserveOut); lia.
  - apply (swap_D_range feeRate amountIn reserveIn reserveOut); lia.
Qed.

(** The worked swap of the specification: fee rate 30, 1000 in, reserves
    1000000 and 2000000. *)
Example getAmountOut_golden :
  getAmountOut (ofZ 30) (ofZ 1000) (ofZ 1000000) (ofZ 2000000)
  = Ok (ofZ (9970000 * 2000000 / 10009970000)).
Proof. reflexivity. Qed.

(** C3 does not hold of the code on every valid input.  With fee rate 1,
    1 unit in and reserves 99990000000000001 and 100000000000000002, the
    exact quotient is 999900000000000019998 / 999900000000000019999: its
    floor is 0, but [dividedBy] rounds it half-up at twenty decimals to
    1.00000000000000000000 before [integerValue] truncates, and
    [getAmountOut] returns 1. *)
Theorem getAmountOut_rounds_past_floor :
  u64 1 /\ u64 99990000000000001 /\ u64 100000000000000002 /\
  1 * (10000 - 1) * 100000000000000002 = 999900000000000019998 /\
  99990000000000001 * 10000 + 1 * (10000 - 1) = 999900000000000019999 /\
  999900000000000019998 / 999900000000000019999 = 0 /\
  getAmountOut (ofZ 1) (ofZ 1) (ofZ 99990000000000001) (ofZ 100000000000000002)
  = Ok (ofZ 1).
Proof.
  unfold u64. repeat (split; [lia|]).
  split; [reflexivity|]. split; reflexivity.
Qed.

(** With a non-negative dividend and a negative divisor the rounded quotient
    is never positive. *)
Lemma div20_neg_divisor (a b : Z) : 0 <= a -> b < 0 -> div20 a b <= 0.
Proof.
  intros Ha Hb. unfold div20, round_div.
  rewrite (Z.sgn_neg b) by lia.
  assert (HR : 0 <= (2 * Z.abs (a * E20) + Z.abs b) / (2 * Z.abs b))
    by (apply Z.div_pos; lia).
  assert (HS : 0 <= Z.sgn (a * E20))
    by (apply Z.sgn_nonneg; unfold E20; lia).
  set (R := (2 * Z.abs (a * E20) + Z.abs b) / (2 * Z.abs b)) in *.
  assert (HX : Z.sgn (a * E20) * -1 * R <= 0).
  { replace (Z.sgn (a * E20) * -1 * R) with (- (Z.sgn (a * E20) * R)) by ring.
    assert (0 <= Z.sgn (a * E20) * R) by (apply Z.mul_nonneg_nonneg; lia).
    lia. }
  apply Z.le_trans with (Z.quot 0 E20);
    [apply Z.quot_le_mono; [reflexivity|exact HX] | now rewrite Z.quot_0_l].
Qed.

(** Without a guard on reserveOut < amountOut, a request larger than the
    reserve is not refused: the divisor is negative, the quotient is
    truncated towards zero, and a value of at most 1 comes back. *)
Lemma getAmountIn_beyond_reserve (feeRate amountOut reserveIn reserveOut : Z) :
  u64 feeRate -> u64 amountOut -> u64 reserveIn -> u64 reserveOut ->
  feeRate <= 2000 -> 0 < amountOut -> 0 < reserveIn -> 0 < reserveOut ->
  reserveOut < amountOut ->
  exists r : Z,
    r <= 1 /\
    getAmountIn (ofZ feeRate) (ofZ amountOut) (ofZ reserveIn) (ofZ reserveOut)
    = Ok (ofZ r).
Proof.
  unfold u64. intros Uf Ua Ui Uo Hf Ha Hi Ho Hlt.
  assert (Hnum : 0 <= reserveIn * amountOut * 10000)
    by (repeat apply Z.mul_nonneg_nonneg; lia).
  assert (Hden : (reserveOut - amountOut) * (10000 - feeRate) < 0)
    by (apply Z.mul_neg_pos; lia).
  pose proof (div20_neg_divisor _ _ Hnum Hden) as Hq.
  exists (div20 (reserveIn * amountOut * 10000)
                ((reserveOut - amountOut) * (10000 - feeRate)) + 1).
  split; [lia|].
  rewrite getAmountIn_ofZ by lia. cbv zeta.
  destruct (Z.ltb_spec 18446744073709551615
              (div20 (reserveIn * amountOut * 10000)
                     ((reserveOut - amountOut) * (10000 - feeRate)) + 1))
    as [|_]; [lia|reflexivity].
Qed.

(** C4, as the specification states it, fails: the code has no
    InsufficientLiquidity failure and no guard on reserveOut <= amountOut.
    Asking for 200 units out of a reserve of 100 does not fail at all: the
    quotient -200.6... is truncated to -200 and the call returns -199.
    Asking for the whole reserve of 100 does fail, with Overflow. *)
Lemma getAmountIn_no_liquidity_guard :
  u64 30 /\ u64 200 /\ u64 100 /\ 30 <= 2000 /\ 100 <= 200 /\
  getAmountIn (ofZ 30) (ofZ 200) (ofZ 100) (ofZ 100) = Ok (ofZ (-199)) /\
  (forall e, getAmountIn (ofZ 30) (ofZ 200) (ofZ 100) (ofZ 100) <> Throw e) /\
  getAmountIn (ofZ 30) (ofZ 100) (ofZ 100) (ofZ 100) = Throw Overflow.
Proof.
  unfold u64. repeat (split; [lia|]).
  assert (H : getAmountIn (ofZ 30) (ofZ 200) (ofZ 100) (ofZ 100)
              = Ok (ofZ (-199))) by reflexivity.
  split; [exact H|]. split; [|reflexivity].
  intros e. rewrite H. discriminate.
Qed.

(** C4, amended. For every input with 64-bit amounts, feeRate <= 2000,
    amountOut > 0, both reserves > 0 and reserveOut = amountOut,
    [getAmountIn] fails, and the failure kind is Overflow: the denominator is
    zero, the quotient is Infinity, and Infinity exceeds U64_MAX. *)
Theorem getAmountIn_whole_reserve_overflows
    (feeRate amountOut reserveIn reserveOut : Z) :
  u64 feeRate -> u64 amountOut -> u64 reserveIn -> u64 reserveOut ->
  feeRate <= 2000 -> 0 < amountOut -> 0 < reserveIn -> 0 < reserveOut ->
  reserveOut = amountOut ->
  getAmountIn (ofZ feeRate) (ofZ amountOut) (ofZ reserveIn) (ofZ reserveOut)
  = Throw Overflow.
Proof.
  unfold u64. intros Uf Ua Ui Uo Hf Ha Hi Ho ->.
  assert (Hnum : 0 < reserveIn * amountOut * 10000)
    by (repeat apply Z.mul_pos_pos; lia).
  unfold getAmountIn, MAX_FEE_RATE, FEE_SCALE, U64_MAX. autorewrite with bn.
  destruct (Z.ltb_spec 2000 feeRate) as [|_]; [lia|].
  destruct (Z.eqb_spec amountOut 0) as [|_]; [lia|].
  destruct (Z.eqb_spec reserveIn 0) as [|_]; [lia|].
  cbn [orb]. rewrite Z.sub_diag, Z.mul_0_l.
  unfold dividedBy, ofZ. cbn [Z.eqb].
  destruct (Z.eqb_spec (reserveIn * amountOut * 10000) 0) as [|_]; [lia|].
  destruct (Z.ltb_spec (reserveIn * amountOut * 10000) 0) as [|_]; [lia|].
  reflexivity.
Qed.

Lemma getAmountIn_whole_reserve_overflows_witness :
  u64 30 /\ u64 100 /\
  getAmountIn (ofZ 30) (ofZ 100) (ofZ 100) (ofZ 100) = Throw Overflow.
Proof.
  assert (H30 : u64 30) by (unfold u64; lia).
  assert (H100 : u64 100) by (unfold u64; lia).
  repeat (split; [assumption|]).
  apply (getAmountIn_whole_reserve_overflows 30 100 100 100);
    try assumption; lia.
Defined.

(** ** [mulDiv] *)

(** C8. On 64-bit operands, [mulDiv x y z] fails with DivisionByZero exactly
    when z = 0; for z <> 0 it fails with Overflow exactly when
    floor (x * y / z) exceeds U64_MAX and otherwise returns floor (x * y / z).
    [mulDiv U64_MAX 2 1] fails with Overflow, and a zero divisor gives
    DivisionByZero whatever the other two operands are. *)
Theorem mulDiv_floor_or_failure (x y z : Z) :
  u64 x -> u64 y -> u64 z ->
  (mulDiv (ofZ x) (ofZ y) (ofZ z) = Throw DivisionByZero <-> z = 0) /\
  (z <> 0 ->
   (mulDiv (ofZ x) (ofZ y) (ofZ z) = Throw Overflow
    <-> 18446744073709551615 < x * y / z) /\
   (x * y / z <= 18446744073709551615 ->
    mulDiv (ofZ x) (ofZ y) (ofZ z) = Ok (ofZ (x * y / z)))) /\
  mulDiv U64_MAX (ofZ 2) (ofZ 1) = Throw Overflow /\
  (forall x' y' : BigNumber, mulDiv x' y' (ofZ 0) = Throw DivisionByZero).
Proof.
  unfold u64. intros Ux Uy Uz.
  assert (Hexact : z <> 0 -> div20 (x * y) z = x * y / z).
  { intros Hz. apply div20_exact; [apply Z.mul_nonneg_nonneg| |unfold E20]; lia. }
  split; [|split; [|split]].
  - split.
    + intros Hthrow. destruct (Z.eq_dec z 0) as [|Hz]; [assumption|exfalso].
      rewrite mulDiv_ofZ in Hthrow by assumption.
      destruct (18446744073709551615 <? div20 (x * y) z); discriminate.
    + intros ->. now apply mulDiv_zero.
  - intros Hz. rewrite mulDiv_ofZ, Hexact by assumption.
    destruct (Z.ltb_spec 18446744073709551615 (x * y / z)) as [Hov|Hok].
    + split; [tauto|lia].
    + split; [|reflexivity].
      split; [discriminate|lia].
  - reflexivity.
  - intros x' y'. now apply mulDiv_zero.
Qed.

Lemma mulDiv_floor_or_failure_witness :
  u64 7 /\ u64 5 /\ u64 2 /\ 7 * 5 / 2 <= 18446744073709551615 /\
  mulDiv (ofZ 7) (ofZ 5) (ofZ 2) = Ok (ofZ (7 * 5 / 2)).
Proof.
  assert (H7 : u64 7) by (unfold u64; lia).
  assert (H5 : u64 5) by (unfold u64; lia).
  assert (H2 : u64 2) by (unfold u64; lia).
  assert (Hq : 7 * 5 / 2 <= 18446744073709551615) by (vm_compute; discriminate).
  repeat (split; [assumption|]).
  destruct (mulDiv_floor_or_failure 7 5 2 H7 H5 H2) as (_ & Hnz & _ & _).
  destruct (Hnz ltac:(lia)) as (_ & Hok).
  exact (Hok Hq).
Defined.

(** ** [getAmountOut]: the guards *)

(** C9. [getAmountOut] fails with InvalidFeeRate for every feeRate > 2000
    whatever the other arguments are, and not at feeRate = 2000, where valid
    64-bit arguments give a result; with feeRate <= 2000 it fails with
    ZeroAmount when amountIn = 0, and with feeRate <= 2000 and amountIn > 0 it
    fails with EmptyReserves when reserveIn = 0 or reserveOut = 0. *)
Theorem getAmountOut_guards :
  (forall (feeRate : Z) (amountIn reserveIn reserveOut : BigNumber),
     2000 < feeRate ->
     getAmountOut (ofZ feeRate) amountIn reserveIn reserveOut
     = Throw InvalidFeeRate) /\
  (forall amountIn reserveIn reserveOut : BigNumber,
     getAmountOut (ofZ 2000) amountIn reserveIn reserveOut
     <> Throw InvalidFeeRate) /\
  (forall amountIn reserveIn reserveOut : Z,
     u64 amountIn -> u64 reserveIn -> u64 reserveOut ->
     0 < amountIn -> 0 < reserveIn -> 0 < reserveOut ->
     exists out : Z,
       getAmountOut (ofZ 2000) (ofZ amountIn) (ofZ reserveIn) (ofZ reserveOut)
       = Ok (ofZ out)) /\
  (forall (feeRate : Z) (reserveIn reserveOut : BigNumber),
     feeRate <= 2000 ->
     getAmountOut (ofZ feeRate) (ofZ 0) reserveIn reserveOut
     = Throw ZeroAmount) /\
  (forall feeRate amountIn reserveIn reserveOut : Z,
     feeRate <= 2000 -> 0 < amountIn ->
     reserveIn = 0 \/ reserveOut = 0 ->
     getAmountOut (ofZ feeRate) (ofZ amountIn) (ofZ reserveIn) (ofZ reserveOut)
     = Throw EmptyReserves).
Proof.
  split; [|split; [|split; [|split]]].
  - intros feeRate amountIn reserveIn reserveOut Hf.
    unfold getAmountOut, MAX_FEE_RATE. rewrite isGreaterThan_ofZ.
    destruct (Z.ltb_spec 2000 feeRate); [reflexivity|lia].
  - intros amountIn reserveIn reserveOut.
    unfold getAmountOut, MAX_FEE_RATE. rewrite isGreaterThan_ofZ.
    cbn [Z.ltb Z.compare Pos.compare Pos.compare_cont].
    destruct (isZero amountIn); [discriminate|].
    destruct (isZero reserveIn || isZero reserveOut); [discriminate|].
    cbv zeta. destruct (isGreaterThan _ U64_MAX); discriminate.
  - intros amountIn reserveIn reserveOut Ua Ui Uo Ha Hi Ho.
    eexists. apply getAmountOut_returns; try assumption; unfold u64; lia.
  - intros feeRate reserveIn reserveOut Hf.
    unfold getAmountOut, MAX_FEE_RATE. rewrite isGreaterThan_ofZ.
    destruct (Z.ltb_spec 2000 feeRate); [lia|reflexivity].
  - intros feeRate amountIn reserveIn reserveOut Hf Ha Hr.
    unfold getAmountOut, MAX_FEE_RATE. autorewrite with bn.
    destruct (Z.ltb_spec 2000 feeRate); [lia|].
    destruct (Z.eqb_spec amountIn 0); [lia|].
    destruct Hr as [-> | ->]; cbn [Z.eqb orb]; [reflexivity|].
    now rewrite orb_true_r.
Qed.

Lemma getAmountOut_guards_witness :
  getAmountOut (ofZ 2001) (ofZ 5) (ofZ 7) (ofZ 9) = Throw InvalidFeeRate /\
  getAmountOut (ofZ 2000) (ofZ 5) (ofZ 7) (ofZ 9) <> Throw InvalidFeeRate /\
  (exists out : Z,
     getAmountOut (ofZ 2000) (ofZ 5) (ofZ 7) (ofZ 9) = Ok (ofZ out)) /\
  getAmountOut (ofZ 30) (ofZ 0) (ofZ 7) (ofZ 9) = Throw ZeroAmount /\
  getAmountOut (ofZ 30) (ofZ 5) (ofZ 0) (ofZ 9) = Throw EmptyReserves.
Proof.
  destruct getAmountOut_guards as (Hinv & Hcap & Hok & Hzero & Hempty).
  split; [apply Hinv; lia|].
  split; [apply Hcap|].
  split; [apply Hok; unfold u64; lia|].
  split; [apply Hzero; lia|].
  apply Hempty; [lia|lia|left; reflexivity].
Defined.

(** ** [calcOptimalCoinValues] *)

Lemma isLessThanOrEqualTo_refl (x : BigNumber) :
  isFinite x = true -> isLessThanOrEqualTo x x = true.
Proof.
  destruct x as [| |c dp]; try discriminate. intros _.
  unfold isLessThanOrEqualTo, comparedTo. now rewrite Z.compare_refl.
Qed.

Lemma not_isGreaterThan_finite (x y : BigNumber) :
  isFinite x = true -> isFinite y = true ->
  isGreaterThan x y = false -> isLessThanOrEqualTo x y = true.
Proof.
  destruct x as [| |c1 d1]; try discriminate.
  destruct y as [| |c2 d2]; try discriminate. intros _ _.
  unfold isGreaterThan, isLessThanOrEqualTo, comparedTo.
  now destruct (_ ?= _).
Qed.

Lemma mulDiv_isFinite (x y z r : BigNumber) :
  isFinite x = true -> isFinite y = true -> isFinite z = true ->
  mulDiv x y z = Ok r -> isFinite r = true.
Proof.
  destruct x as [| |cx dx]; try discriminate.
  destruct y as [| |cy dy]; try discriminate.
  destruct z as [| |cz dz]; try discriminate. intros _ _ _.
  unfold mulDiv, isZero, multipliedBy, dividedBy.
  destruct (cz =? 0); [discriminate|].
  cbn [integerValue].
  destruct (isGreaterThan _ U64_MAX); [discriminate|].
  intros [= <-]. reflexivity.
Qed.

(** C5. Whenever [calcOptimalCoinValues] returns a pair on finite arguments,
    each component is at most the corresponding desired amount; and when both
    reserves are zero it returns the desired pair unchanged. *)
Theorem calcOptimalCoinValues_within_desired :
  (forall xDesired yDesired xReserve yReserve xOptimal yOptimal : BigNumber,
     isFinite xDesired = true -> isFinite yDesired = true ->
     isFinite xReserve = true -> isFinite yReserve = true ->
     calcOptimalCoinValues xDesired yDesired xReserve yReserve
     = Ok (xOptimal, yOptimal) ->
     isLessThanOrEqualTo xOptimal xDesired = true /\
     isLessThanOrEqualTo yOptimal yDesired = true) /\
  (forall xDesired yDesired xReserve yReserve : BigNumber,
     isZero xReserve = true -> isZero yReserve = true ->
     calcOptimalCoinValues xDesired yDesired xReserve yReserve
     = Ok (xDesired, yDesired)).
Proof.
  split.
  - intros xD yD xR yR xo yo FxD FyD FxR FyR.
    unfold calcOptimalCoinValues.
    destruct (isZero xR && isZero yR).
    { intros [= <- <-]. split; now apply isLessThanOrEqualTo_refl. }
    destruct (mulDiv xD yR xR) as [yRet|e] eqn:Hy; [|discriminate].
    cbn [bind].
    destruct (isLessThanOrEqualTo yRet yD) eqn:Hle.
    { intros [= <- <-]. split; [now apply isLessThanOrEqualTo_refl|exact Hle]. }
    destruct (mulDiv yD xR yR) as [xRet|e] eqn:Hx; [|discriminate].
    cbn [bind].
    destruct (isGreaterThan xRet xD) eqn:Hgt; [discriminate|].
    intros [= <- <-]. split; [|now apply isLessThanOrEqualTo_refl].
    apply not_isGreaterThan_finite; try assumption.
    now apply (mulDiv_isFinite yD xR yR).
  - intros xD yD xR yR HxR HyR.
    unfold calcOptimalCoinValues. now rewrite HxR, HyR.
Qed.

Lemma calcOptimalCoinValues_within_desired_witness :
  isLessThanOrEqualTo (ofZ 100) (ofZ 100) = true /\
  isLessThanOrEqualTo (ofZ 200) (ofZ 300) = true /\
  calcOptimalCoinValues (ofZ 1000) (ofZ 2000) (ofZ 0) (ofZ 0)
  = Ok (ofZ 1000, ofZ 2000).
Proof.
  destruct calcOptimalCoinValues_within_desired as (Hle & Hinit).
  destruct (Hle (ofZ 100) (ofZ 300) (ofZ 1000) (ofZ 2000) (ofZ 100) (ofZ 200)
              eq_refl eq_refl eq_refl eq_refl eq_refl) as (Hx & Hy).
  split; [exact Hx|]. split; [exact Hy|].
  apply Hinit; reflexivity.
Defined.

(** C6. With 64-bit amounts and both reserves positive,
    [calcOptimalCoinValues] never fails with OverLimit: in the branch where
    [mulDiv xDesired yReserve xReserve] exceeds yDesired, the second
    [mulDiv yDesired xReserve yReserve] returns a value that is at most
    xDesired. *)
Theorem calcOptimalCoinValues_never_OverLimit
    (xDesired yDesired xReserve yReserve : Z) :
  u64 xDesired -> u64 yDesired -> u64 xReserve -> u64 yReserve ->
  0 < xReserve -> 0 < yReserve ->
  calcOptimalCoinValues (ofZ xDesired) (ofZ yDesired) (ofZ xReserve) (ofZ yReserve)
  <> Throw OverLimit /\
  (forall yReturned : Z,
     mulDiv (ofZ xDesired) (ofZ yReserve) (ofZ xReserve) = Ok (ofZ yReturned) ->
     yDesired < yReturned ->
     exists xReturned : Z,
       mulDiv (ofZ yDesired) (ofZ xReserve) (ofZ yReserve) = Ok (ofZ xReturned) /\
       xReturned <= xDesired).
Proof.
  unfold u64. intros UxD UyD UxR UyR HxR HyR.
  assert (Hy : div20 (xDesired * yReserve) xReserve = xDesired * yReserve / xReserve).
  { apply div20_exact; [apply Z.mul_nonneg_nonneg| |unfold E20]; lia. }
  assert (Hx : div20 (yDesired * xReserve) yReserve = yDesired * xReserve / yReserve).
  { apply div20_exact; [apply Z.mul_nonneg_nonneg| |unfold E20]; lia. }
  assert (Hbranch : yDesired < xDesired * yReserve / xReserve ->
                    0 <= yDesired * xReserve / yReserve <= xDesired).
  { intros Hlt. split.
    - apply Z.div_pos; [apply Z.mul_nonneg_nonneg|]; lia.
    - apply Z.div_le_upper_bound; [lia|].
      assert (xReserve * (xDesired * yReserve / xReserve) <= xDesired * yReserve)
        by (apply Z.mul_div_le; lia).
      assert (xReserve * (yDesired + 1)
              <= xReserve * (xDesired * yReserve / xReserve))
        by (apply Z.mul_le_mono_nonneg_l; lia).
      lia. }
  assert (Hsecond : yDesired < xDesired * yReserve / xReserve ->
                    mulDiv (ofZ yDesired) (ofZ xReserve) (ofZ yReserve)
                    = Ok (ofZ (yDesired * xReserve / yReserve))).
  { intros Hlt. specialize (Hbranch Hlt).
    rewrite mulDiv_ofZ, Hx by lia.
    destruct (Z.ltb_spec 18446744073709551615 (yDesired * xReserve / yReserve));
      [lia|reflexivity]. }
  split.
  - unfold calcOptimalCoinValues. autorewrite with bn.
    destruct (Z.eqb_spec xReserve 0) as [|_]; [lia|]. cbn [andb].
    rewrite (mulDiv_ofZ xDesired yReserve xReserve), Hy by lia.
    destruct (18446744073709551615 <? xDesired * yReserve / xReserve);
      [discriminate|].
    cbn [bind]. autorewrite with bn.
    destruct (Z.leb_spec (xDesired * yReserve / xReserve) yDesired) as [|Hlt];
      [discriminate|].
    rewrite (Hsecond Hlt). cbn [bind]. autorewrite with bn.
    destruct (Z.ltb_spec xDesired (yDesired * xReserve / yReserve));
      [specialize (Hbranch Hlt); lia|discriminate].
  - intros yReturned Hret Hlt.
    rewrite mulDiv_ofZ, Hy in Hret by lia.
    destruct (18446744073709551615 <? xDesired * yReserve / xReserve);
      [discriminate|].
    assert (Heq : xDesired * yReserve / xReserve = yReturned)
      by (unfold ofZ in Hret; congruence).
    rewrite <- Heq in Hlt.
    exists (yDesired * xReserve / yReserve).
    split; [exact (Hsecond Hlt)|apply (Hbranch Hlt)].
Qed.

Lemma calcOptimalCoinValues_never_OverLimit_witness :
  u64 100 /\ u64 50 /\ u64 1000 /\ u64 2000 /\
  (calcOptimalCoinValues (ofZ 100) (ofZ 50) (ofZ 1000) (ofZ 2000)
   <> Throw OverLimit) /\
  (exists xReturned : Z,
     mulDiv (ofZ 50) (ofZ 1000) (ofZ 2000) = Ok (ofZ xReturned) /\
     xReturned <= 100).
Proof.
  assert (H100 : u64 100) by (unfold u64; lia).
  assert (H50 : u64 50) by (unfold u64; lia).
  assert (H1000 : u64 1000) by (unfold u64; lia).
  assert (H2000 : u64 2000) by (unfold u64; lia).
  repeat (split; [assumption|]).
  destruct (calcOptimalCoinValues_never_OverLimit 100 50 1000 2000
              H100 H50 H1000 H2000 ltac:(lia) ltac:(lia)) as (Hno & Hbr).
  split; [exact Hno|].
  apply (Hbr 200); [reflexivity|lia].
Defined.

(** C10. When exactly one reserve is zero the two sides differ: with
    xReserve = 0 and yReserve non-zero the first [mulDiv] divides by zero and
    the call fails with DivisionByZero, whatever the desired amounts; with
    xReserve > 0 and yReserve = 0 the call returns (xDesired, 0) without
    failing. *)
Theorem calcOptimalCoinValues_one_empty_reserve :
  (forall (xDesired yDesired yReserve : BigNumber),
     isZero yReserve = false ->
     calcOptimalCoinValues xDesired yDesired (ofZ 0) yReserve
     = Throw DivisionByZero) /\
  (forall xDesired yDesired xReserve : Z,
     u64 xDesired -> u64 yDesired -> u64 xReserve -> 0 < xReserve ->
     calcOptimalCoinValues (ofZ xDesired) (ofZ yDesired) (ofZ xReserve) (ofZ 0)
     = Ok (ofZ xDesired, ofZ 0)).
Proof.
  split.
  - intros xD yD yR HyR. unfold calcOptimalCoinValues.
    rewrite HyR. cbn [isZero ofZ Z.eqb andb].
    now rewrite mulDiv_zero.
  - unfold u64. intros xD yD xR UxD UyD UxR HxR.
    unfold calcOptimalCoinValues. autorewrite with bn.
    destruct (Z.eqb_spec xR 0) as [|_]; [lia|]. cbn [andb].
    rewrite mulDiv_ofZ by lia.
    rewrite Z.mul_0_r.
    assert (Hz : div20 0 xR = 0).
    { rewrite div20_exact by (unfold E20; lia). now apply Z.div_0_l, Z.neq_sym, Z.lt_neq. }
    rewrite Hz. cbn [Z.ltb Z.compare bind]. autorewrite with bn.
    destruct (Z.leb_spec 0 yD); [reflexivity|lia].
Qed.

Lemma calcOptimalCoinValues_one_empty_reserve_witness :
  calcOptimalCoinValues (ofZ 100) (ofZ 300) (ofZ 0) (ofZ 2000)
  = Throw DivisionByZero /\
  calcOptimalCoinValues (ofZ 100) (ofZ 300) (ofZ 1000) (ofZ 0)
  = Ok (ofZ 100, ofZ 0).
Proof.
  destruct calcOptimalCoinValues_one_empty_reserve as (Hx & Hy).
  split.
  - apply Hx. reflexivity.
  - apply Hy; unfold u64; lia.
Defined.

(** ** [getExpectedLiquidityAmount] *)

(** Below [10^20] the rounded root truncates to the integer square root. *)
Lemma sqrt20_exact (a : Z) : 0 <= a -> Z.sqrt a < E20 -> sqrt20 a = Z.sqrt a.
Proof.
  intros Ha Hs. unfold sqrt20.
  assert (HE : 0 < E20) by reflexivity.
  pose proof (Z.sqrt_spec a Ha) as [Hlo Hhi].
  pose proof (Z.sqrt_nonneg a) as Hs0.
  set (s := Z.sqrt a) in *.
  set (M := 2 * (s + 1) * E20).
  assert (HEE : 0 < E20 * E20) by (apply Z.mul_pos_pos; lia).
  assert (Harg : 0 <= 4 * a * (E20 * E20))
    by (apply Z.mul_nonneg_nonneg; lia).
  assert (HsE : 0 <= s * E20) by (apply Z.mul_nonneg_nonneg; lia).
  assert (HT1 : 2 * (s * E20) <= Z.sqrt (4 * a * (E20 * E20))).
  { apply Z.sqrt_le_square; [exact Harg|lia|].
    replace (2 * (s * E20) * (2 * (s * E20)))
      with (4 * (E20 * E20) * (s * s)) by ring.
    replace (4 * a * (E20 * E20)) with (4 * (E20 * E20) * a) by ring.
    apply Z.mul_le_mono_nonneg_l; lia. }
  assert (HT2 : Z.sqrt (4 * a * (E20 * E20)) < M - 1).
  { assert (HM : 2 * E20 <= M).
    { unfold M. replace (2 * (s + 1) * E20) with (2 * E20 + 2 * (s * E20)) by ring.
      lia. }
    apply Z.sqrt_lt_square; [exact Harg|lia|].
    assert (H1 : 4 * (E20 * E20) * (a + 1)
                 <= 4 * (E20 * E20) * ((s + 1) * (s + 1)))
      by (apply Z.mul_le_mono_nonneg_l; [lia|]; unfold Z.succ in Hhi; lia).
    assert (H2 : 4 * (E20 * E20) * ((s + 1) * (s + 1)) = M * M)
      by (unfold M; ring).
    assert (H3 : (s + 1) * E20 <= E20 * E20)
      by (apply Z.mul_le_mono_nonneg_r; lia).
    replace ((M - 1) * (M - 1)) with (M * M - 2 * M + 1) by ring.
    assert (H4 : 2 * M <= 4 * (E20 * E20)) by (unfold M; lia).
    lia. }
  set (T := Z.sqrt (4 * a * (E20 * E20))) in *.
  assert (HR1 : s * E20 <= (T + 1) / 2)
    by (apply Z.div_le_lower_bound; lia).
  assert (HR2 : (T + 1) / 2 < (s + 1) * E20)
    by (apply Z.div_lt_upper_bound; unfold M in HT2; lia).
  rewrite Z.quot_div_nonneg by lia.
  symmetry. apply Z.div_unique with (r := (T + 1) / 2 - s * E20); lia.
Qed.

Lemma sqrt_u64_product (x y : Z) :
  u64 x -> u64 y -> Z.sqrt (x * y) <= 18446744073709551615.
Proof.
  unfold u64. intros Hx Hy.
  rewrite <- (Z.sqrt_square 18446744073709551615) by lia.
  apply Z.sqrt_le_mono.
  apply Z.mul_le_mono_nonneg; lia.
Qed.

(** C7, as the specification states it, fails in the subsequent-deposit
    case: the smaller candidate is returned only while it fits in 64 bits.
    With reserves (1, 1), a supply of U64_MAX and a contribution of (2, 2),
    both candidates are 2 * U64_MAX and the call fails with Overflow. *)
Lemma getExpectedLiquidityAmount_overflows :
  u64 2 /\ u64 1 /\ u64 18446744073709551615 /\
  Z.min (18446744073709551615 * 2 / 1) (18446744073709551615 * 2 / 1)
  = 36893488147419103230 /\
  getExpectedLiquidityAmount
    (ofZ 2) (ofZ 2) (ofZ 1) (ofZ 1) (ofZ 18446744073709551615)
  = Throw Overflow.
Proof.
  unfold u64. repeat (split; [lia|]). split; reflexivity.
Qed.

(** C7, amended. On 64-bit amounts: for the first deposit
    (xReserve = yReserve = lpSupply = 0) [getExpectedLiquidityAmount] returns
    floor (sqrt (xOpt * yOpt)) - 1000, so 414 for (1000, 2000); for
    xReserve > 0 and yReserve > 0 it takes the smaller of
    floor (lpSupply * xOpt / xReserve) and floor (lpSupply * yOpt / yReserve),
    returns it when it is at most U64_MAX and fails with Overflow otherwise. *)
Theorem getExpectedLiquidityAmount_cases (xOpt yOpt : Z) :
  u64 xOpt -> u64 yOpt ->
  getExpectedLiquidityAmount (ofZ xOpt) (ofZ yOpt) (ofZ 0) (ofZ 0) (ofZ 0)
  = Ok (ofZ (Z.sqrt (xOpt * yOpt) - 1000)) /\
  getExpectedLiquidityAmount (ofZ 1000) (ofZ 2000) (ofZ 0) (ofZ 0) (ofZ 0)
  = Ok (ofZ 414) /\
  (forall xReserve yReserve lpSupply : Z,
     u64 xReserve -> u64 yReserve -> u64 lpSupply ->
     0 < xReserve -> 0 < yReserve ->
     getExpectedLiquidityAmount
       (ofZ xOpt) (ofZ yOpt) (ofZ xReserve) (ofZ yReserve) (ofZ lpSupply)
     = let lpMinted :=
         Z.min (lpSupply * xOpt / xReserve) (lpSupply * yOpt / yReserve) in
       if 18446744073709551615 <? lpMinted then Throw Overflow
       else Ok (ofZ lpMinted)).
Proof.
  intros Ux Uy. split; [|split].
  - pose proof (sqrt_u64_product xOpt yOpt Ux Uy) as Hs.
    unfold u64 in *.
    unfold getExpectedLiquidityAmount, U64_MAX.
    cbn [isZero ofZ Z.eqb andb]. fold (ofZ xOpt) (ofZ yOpt) (ofZ 1000).
    fold (ofZ 18446744073709551615).
    rewrite multipliedBy_ofZ, isqrt_ofZ by (apply Z.mul_nonneg_nonneg; lia).
    rewrite sqrt20_exact
      by (try apply Z.mul_nonneg_nonneg; unfold E20; lia).
    autorewrite with bn.
    destruct (Z.ltb_spec 18446744073709551615 (Z.sqrt (xOpt * yOpt) - 1000));
      [lia|reflexivity].
  - reflexivity.
  - unfold u64 in *. intros xR yR lp UxR UyR Ulp HxR HyR.
    unfold getExpectedLiquidityAmount, U64_MAX. autorewrite with bn.
    destruct (Z.eqb_spec xR 0) as [|_]; [lia|]. cbn [andb].
    rewrite !idiv_ofZ by lia.
    rewrite !div20_exact
      by (try apply Z.mul_nonneg_nonneg; unfold E20; lia).
    autorewrite with bn. cbv zeta.
    destruct (Z.ltb_spec (lp * xOpt / xR) (lp * yOpt / yR)) as [Hlt|Hge].
    + now rewrite Z.min_l by lia.
    + now rewrite Z.min_r by lia.
Qed.

Lemma getExpectedLiquidityAmount_cases_witness :
  u64 100 /\ u64 200 /\ u64 1000 /\ u64 2000 /\
  getExpectedLiquidityAmount (ofZ 100) (ofZ 200) (ofZ 0) (ofZ 0) (ofZ 0)
  = Ok (ofZ (Z.sqrt (100 * 200) - 1000)) /\
  getExpectedLiquidityAmount
    (ofZ 100) (ofZ 200) (ofZ 1000) (ofZ 2000) (ofZ 1000)
  = let lpMinted := Z.min (1000 * 100 / 1000) (1000 * 200 / 2000) in
    if 18446744073709551615 <? lpMinted then Throw Overflow
    else Ok (ofZ lpMinted).
Proof.
  assert (H100 : u64 100) by (unfold u64; lia).
  assert (H200 : u64 200) by (unfold u64; lia).
  assert (H1000 : u64 1000) by (unfold u64; lia).
  assert (H2000 : u64 2000) by (unfold u64; lia).
  repeat (split; [assumption|]).
  destruct (getExpectedLiquidityAmount_cases 100 200 H100 H200)
    as (Hfirst & _ & Hnext).
  split; [exact Hfirst|].
  exact (Hnext 1000 2000 1000 H1000 H2000 H1000 ltac:(lia) ltac:(lia)).
Defined.

(** ** Further properties of the swap functions *)

(** The rounded quotient is monotone in the exact quotient. *)
Lemma div20_mono (x y x' y' : Z) :
  0 <= x -> 0 < y -> 0 <= x' -> 0 < y' ->
  x * y' <= x' * y -> div20 x y <= div20 x' y'.
Proof.
  intros Hx Hy Hx' Hy' Hcross.
  rewrite !div20_pos_eq by assumption.
  assert (HE : 0 < E20) by reflexivity.
  apply Z.div_le_mono; [exact HE|].
  apply Z.div_le_lower_bound; [lia|].
  set (q := (2 * (x * E20) + y) / (2 * y)).
  assert (Hq : 2 * y * q <= 2 * (x * E20) + y) by (apply Z.mul_div_le; lia).
  assert (H1 : y' * (2 * y * q) <= y' * (2 * (x * E20) + y))
    by (apply Z.mul_le_mono_nonneg_l; lia).
  assert (H2 : 2 * E20 * (x * y') <= 2 * E20 * (x' * y))
    by (apply Z.mul_le_mono_nonneg_l; lia).
  assert (H3 : y * (2 * y' * q) <= y * (2 * (x' * E20) + y')) by lia.
  apply Z.mul_le_mono_pos_l in H3; assumption.
Qed.

(** X1. On valid 64-bit inputs [getAmountOut] always returns, and the amount
    it returns is non-negative and strictly below the output reserve: a swap
    never drains the pool. *)
Theorem getAmountOut_below_reserve
    (feeRate amountIn reserveIn reserveOut : Z) :
  u64 feeRate -> u64 amountIn -> u64 reserveIn -> u64 reserveOut ->
  feeRate <= 2000 -> 0 < amountIn -> 0 < reserveIn -> 0 < reserveOut ->
  exists amountOut : Z,
    getAmountOut (ofZ feeRate) (ofZ amountIn) (ofZ reserveIn) (ofZ reserveOut)
    = Ok (ofZ amountOut) /\
    0 <= amountOut < reserveOut.
Proof.
  intros Uf Ua Ui Uo Hf Ha Hi Ho.
  eexists. split; [apply getAmountOut_returns; assumption|].
  unfold u64 in *. split.
  - apply div20_nonneg.
    + apply (swap_N_nonneg feeRate amountIn reserveIn reserveOut); lia.
    + apply (swap_D_range feeRate amountIn reserveIn reserveOut); lia.
  - apply swap_out_lt_reserve; lia.
Qed.

Lemma getAmountOut_below_reserve_witness :
  u64 30 /\ u64 1000 /\ u64 1000000 /\ u64 2000000 /\
  exists amountOut : Z,
    getAmountOut (ofZ 30) (ofZ 1000) (ofZ 1000000) (ofZ 2000000)
    = Ok (ofZ amountOut) /\
    0 <= amountOut < 2000000.
Proof.
  assert (H30 : u64 30) by (unfold u64; lia).
  assert (H1000 : u64 1000) by (unfold u64; lia).
  assert (H1e6 : u64 1000000) by (unfold u64; lia).
  assert (H2e6 : u64 2000000) by (unfold u64; lia).
  repeat (split; [assumption|]).
  exact (getAmountOut_below_reserve 30 1000 1000000 2000000
           H30 H1000 H1e6 H2e6 ltac:(lia) ltac:(lia) ltac:(lia) ltac:(lia)).
Defined.

(** X2. [getAmountOut] is monotone in the amount paid: on valid 64-bit
    inputs, a larger amountIn never gives a smaller amountOut. *)
Theorem getAmountOut_monotone_amountIn
    (feeRate amountIn amountIn' reserveIn reserveOut : Z) :
  u64 feeRate -> u64 amountIn -> u64 amountIn' ->
  u64 reserveIn -> u64 reserveOut ->
  feeRate <= 2000 -> 0 < amountIn -> 0 < reserveIn -> 0 < reserveOut ->
  amountIn <= amountIn' ->
  exists amountOut amountOut' : Z,
    getAmountOut (ofZ feeRate) (ofZ amountIn) (ofZ reserveIn) (ofZ reserveOut)
    = Ok (ofZ amountOut) /\
    getAmountOut (ofZ feeRate) (ofZ amountIn') (ofZ reserveIn) (ofZ reserveOut)
    = Ok (ofZ amountOut') /\
    amountOut <= amountOut'.
Proof.
  intros Uf Ua Ua' Ui Uo Hf Ha Hi Ho Hle.
  do 2 eexists.
  split; [apply getAmountOut_returns; assumption|].
  split; [apply getAmountOut_returns; try assumption; lia|].
  unfold u64 in *.
  pose proof (swap_N_nonneg feeRate amountIn reserveIn reserveOut
                ltac:(lia) ltac:(lia) ltac:(lia) ltac:(lia)) as HN.
  pose proof (swap_D_range feeRate amountIn reserveIn reserveOut
                ltac:(lia) ltac:(lia) ltac:(lia) ltac:(lia)) as HD.
  pose proof (swap_N_nonneg feeRate amountIn' reserveIn reserveOut
                ltac:(lia) ltac:(lia) ltac:(lia) ltac:(lia)) as HN'.
  pose proof (swap_D_range feeRate amountIn' reserveIn reserveOut
                ltac:(lia) ltac:(lia) ltac:(lia) ltac:(lia)) as HD'.
  apply div20_mono; try lia.
  set (f := 10000 - feeRate) in *.
  assert (Hc : 0 <= f * reserveOut * (10000 * reserveIn))
    by (repeat apply Z.mul_nonneg_nonneg; lia).
  assert (Hm : f * reserveOut * (10000 * reserveIn) * amountIn
               <= f * reserveOut * (10000 * reserveIn) * amountIn')
    by (apply Z.mul_le_mono_nonneg_l; lia).
  replace (amountIn * f * reserveOut * (reserveIn * 10000 + amountIn' * f))
    with (f * reserveOut * (10000 * reserveIn) * amountIn
          + amountIn * amountIn' * f * f * reserveOut) by ring.
  replace (amountIn' * f * reserveOut * (reserveIn * 10000 + amountIn * f))
    with (f * reserveOut * (10000 * reserveIn) * amountIn'
          + amountIn * amountIn' * f * f * reserveOut) by ring.
  lia.
Qed.

Lemma getAmountOut_monotone_amountIn_witness :
  u64 30 /\ u64 1000 /\ u64 5000 /\ u64 1000000 /\ u64 2000000 /\
  exists amountOut amountOut' : Z,
    getAmountOut (ofZ 30) (ofZ 1000) (ofZ 1000000) (ofZ 2000000)
    = Ok (ofZ amountOut) /\
    getAmountOut (ofZ 30) (ofZ 5000) (ofZ 1000000) (ofZ 2000000)
    = Ok (ofZ amountOut') /\
    amountOut <= amountOut'.
Proof.
  assert (H30 : u64 30) by (unfold u64; lia).
  assert (H1000 : u64 1000) by (unfold u64; lia).
  assert (H5000 : u64 5000) by (unfold u64; lia).
  assert (H1e6 : u64 1000000) by (unfold u64; lia).
  assert (H2e6 : u64 2000000) by (unfold u64; lia).
  repeat (split; [assumption|]).
  exact (getAmountOut_monotone_amountIn 30 1000 5000 1000000 2000000
           H30 H1000 H5000 H1e6 H2e6
           ltac:(lia) ltac:(lia) ltac:(lia) ltac:(lia) ltac:(lia)).
Defined.

(** X3. [getAmountOut] is antitone in the fee rate: on valid 64-bit inputs,
    a higher fee rate never gives a larger amountOut. *)
Theorem getAmountOut_antitone_feeRate
    (feeRate feeRate' amountIn reserveIn reserveOut : Z) :
  u64 feeRate -> u64 feeRate' -> u64 amountIn ->
  u64 reserveIn -> u64 reserveOut ->
  feeRate' <= 2000 -> 0 < amountIn -> 0 < reserveIn -> 0 < reserveOut ->
  feeRate <= feeRate' ->
  exists amountOut amountOut' : Z,
    getAmountOut (ofZ feeRate) (ofZ amountIn) (ofZ reserveIn) (ofZ reserveOut)
    = Ok (ofZ amountOut) /\
    getAmountOut (ofZ feeRate') (ofZ amountIn) (ofZ reserveIn) (ofZ reserveOut)
    = Ok (ofZ amountOut') /\
    amountOut' <= amountOut.
Proof.
  intros Uf Uf' Ua Ui Uo Hf Ha Hi Ho Hle.
  do 2 eexists.
  split; [apply getAmountOut_returns; try assumption; lia|].
  split; [apply getAmountOut_returns; assumption|].
  unfold u64 in *.
  pose proof (swap_N_nonneg feeRate amountIn reserveIn reserveOut
                ltac:(lia) ltac:(lia) ltac:(lia) ltac:(lia)) as HN.
  pose proof (swap_D_range feeRate amountIn reserveIn reserveOut
                ltac:(lia) ltac:(lia) ltac:(lia) ltac:(lia)) as HD.
  pose proof (swap_N_nonneg feeRate' amountIn reserveIn reserveOut
                ltac:(lia) ltac:(lia) ltac:(lia) ltac:(lia)) as HN'.
  pose proof (swap_D_range feeRate' amountIn reserveIn reserveOut
                ltac:(lia) ltac:(lia) ltac:(lia) ltac:(lia)) as HD'.
  apply div20_mono; try lia.
  set (f := 10000 - feeRate) in *. set (f' := 10000 - feeRate') in *.
  assert (Hc : 0 <= amountIn * reserveOut * (10000 * reserveIn))
    by (repeat apply Z.mul_nonneg_nonneg; lia).
  assert (Hm : amountIn * reserveOut * (10000 * reserveIn) * f'
               <= amountIn * reserveOut * (10000 * reserveIn) * f)
    by (apply Z.mul_le_mono_nonneg_l; unfold f, f'; lia).
  replace (amountIn * f' * reserveOut * (reserveIn * 10000 + amountIn * f))
    with (amountIn * reserveOut * (10000 * reserveIn) * f'
          + amountIn * amountIn * f * f' * reserveOut) by ring.
  replace (amountIn * f * reserveOut * (reserveIn * 10000 + amountIn * f'))
    with (amountIn * reserveOut * (10000 * reserveIn) * f
          + amountIn * amountIn * f * f' * reserveOut) by ring.
  lia.
Qed.

Lemma getAmountOut_antitone_feeRate_witness :
  u64 0 /\ u64 30 /\ u64 1000 /\ u64 1000000 /\ u64 2000000 /\
  exists amountOut amountOut' : Z,
    getAmountOut (ofZ 0) (ofZ 1000) (ofZ 1000000) (ofZ 2000000)
    = Ok (ofZ amountOut) /\
    getAmountOut (ofZ 30) (ofZ 1000) (ofZ 1000000) (ofZ 2000000)
    = Ok (ofZ amountOut') /\
    amountOut' <= amountOut.
Proof.
  assert (H0 : u64 0) by (unfold u64; lia).
  assert (H30 : u64 30) by (unfold u64; lia).
  assert (H1000 : u64 1000) by (unfold u64; lia).
  assert (H1e6 : u64 1000000) by (unfold u64; lia).
  assert (H2e6 : u64 2000000) by (unfold u64; lia).
  repeat (split; [assumption|]).
  exact (getAmountOut_antitone_feeRate 0 30 1000 1000000 2000000
           H0 H30 H1000 H1e6 H2e6
           ltac:(lia) ltac:(lia) ltac:(lia) ltac:(lia) ltac:(lia)).
Defined.

(** What [getAmountIn] computes when the request is below the reserve: the
    rounded quotient plus one, a value whose product with the denominator
    exceeds the numerator. *)
Lemma getAmountIn_quote (feeRate amountOut reserveIn reserveOut r : Z) :
  u64 feeRate -> u64 amountOut -> u64 reserveIn -> u64 reserveOut ->
  feeRate <= 2000 -> 0 < amountOut -> 0 < reserveIn ->
  amountOut < reserveOut ->
  getAmountIn (ofZ feeRate) (ofZ amountOut) (ofZ reserveIn) (ofZ reserveOut)
  = Ok (ofZ r) ->
  1 <= r <= 18446744073709551615 /\
  reserveIn * amountOut * 10000
  < r * ((reserveOut - amountOut) * (10000 - feeRate)).
Proof.
  unfold u64. intros Uf Ua Ui Uo Hf Ha Hi Hlt Hret.
  set (num := reserveIn * amountOut * 10000) in *.
  set (den := (reserveOut - amountOut) * (10000 - feeRate)) in *.
  assert (Hden : 0 < den) by (apply Z.mul_pos_pos; lia).
  assert (Hnum : 0 <= num)
    by (unfold num; repeat apply Z.mul_nonneg_nonneg; lia).
  rewrite getAmountIn_ofZ in Hret by lia. cbv zeta in Hret.
  fold num den in Hret.
  destruct (Z.ltb_spec 18446744073709551615 (div20 num den + 1)) as [|Hfit];
    [discriminate|].
  assert (Hr : div20 num den + 1 = r) by (unfold ofZ in Hret; congruence).
  pose proof (div20_lower num den Hnum Hden) as Hlow.
  assert (Hq : 0 <= num / den) by (apply Z.div_pos; lia).
  assert (Hmod : num < den * (num / den + 1)).
  { pose proof (Z.mod_pos_bound num den Hden) as Hm.
    pose proof (Z.div_mod num den ltac:(lia)) as Hdm. lia. }
  assert (Hmono : den * (num / den + 1) <= den * r)
    by (apply Z.mul_le_mono_nonneg_l; lia).
  split; [lia|]. lia.
Qed.

(** X4. Paying what [getAmountIn] quotes is enough: on valid 64-bit inputs
    with 0 < amountOut < reserveOut, if [getAmountIn] returns r then
    [getAmountOut] on r returns at least amountOut. *)
Theorem getAmountIn_suffices
    (feeRate amountOut reserveIn reserveOut r : Z) :
  u64 feeRate -> u64 amountOut -> u64 reserveIn -> u64 reserveOut ->
  feeRate <= 2000 -> 0 < amountOut -> 0 < reserveIn ->
  amountOut < reserveOut ->
  getAmountIn (ofZ feeRate) (ofZ amountOut) (ofZ reserveIn) (ofZ reserveOut)
  = Ok (ofZ r) ->
  exists got : Z,
    getAmountOut (ofZ feeRate) (ofZ r) (ofZ reserveIn) (ofZ reserveOut)
    = Ok (ofZ got) /\
    amountOut <= got.
Proof.
  intros Uf Ua Ui Uo Hf Ha Hi Hlt Hret.
  destruct (getAmountIn_quote _ _ _ _ _ Uf Ua Ui Uo Hf Ha Hi Hlt Hret)
    as (Hr & Hpay).
  unfold u64 in *.
  eexists. split; [apply getAmountOut_returns; unfold u64; lia|].
  pose proof (swap_N_nonneg feeRate r reserveIn reserveOut
                ltac:(lia) ltac:(lia) ltac:(lia) ltac:(lia)) as HN.
  pose proof (swap_D_range feeRate r reserveIn reserveOut
                ltac:(lia) ltac:(lia) ltac:(lia) ltac:(lia)) as HD.
  etransitivity; [|apply div20_lower; lia].
  apply Z.div_le_lower_bound; [lia|].
  replace ((reserveIn * 10000 + r * (10000 - feeRate)) * amountOut)
    with (reserveIn * amountOut * 10000
          + r * (10000 - feeRate) * amountOut) by ring.
  replace (r * (10000 - feeRate) * reserveOut)
    with (r * ((reserveOut - amountOut) * (10000 - feeRate))
          + r * (10000 - feeRate) * amountOut) by ring.
  lia.
Qed.

Lemma getAmountIn_suffices_witness :
  u64 30 /\ u64 1992 /\ u64 1000000 /\ u64 2000000 /\
  exists got : Z,
    getAmountOut (ofZ 30) (ofZ 1000) (ofZ 1000000) (ofZ 2000000)
    = Ok (ofZ got) /\
    1992 <= got.
Proof.
  assert (H30 : u64 30) by (unfold u64; lia).
  assert (H1992 : u64 1992) by (unfold u64; lia).
  assert (H1e6 : u64 1000000) by (unfold u64; lia).
  assert (H2e6 : u64 2000000) by (unfold u64; lia).
  repeat (split; [assumption|]).
  refine (getAmountIn_suffices 30 1992 1000000 2000000 1000
            H30 H1992 H1e6 H2e6 _ _ _ _ _); try lia.
  reflexivity.
Defined.

(** X5. An exact-output swap raises the constant product: on valid 64-bit
    inputs with 0 < amountOut < reserveOut, if [getAmountIn] returns r then
    reserveIn * reserveOut < (reserveIn + r) * (reserveOut - amountOut), and
    [assertLpValueIsIncreased] on the reserves before and after returns. *)
Theorem getAmountIn_constant_product_increases
    (feeRate amountOut reserveIn reserveOut r : Z) :
  u64 feeRate -> u64 amountOut -> u64 reserveIn -> u64 reserveOut ->
  feeRate <= 2000 -> 0 < amountOut -> 0 < reserveIn ->
  amountOut < reserveOut ->
  getAmountIn (ofZ feeRate) (ofZ amountOut) (ofZ reserveIn) (ofZ reserveOut)
  = Ok (ofZ r) ->
  reserveIn * reserveOut < (reserveIn + r) * (reserveOut - amountOut) /\
  assertLpValueIsIncreased
    (ofZ reserveIn) (ofZ reserveOut)
    (plus (ofZ reserveIn) (ofZ r)) (minus (ofZ reserveOut) (ofZ amountOut))
  = Ok tt.
Proof.
  intros Uf Ua Ui Uo Hf Ha Hi Hlt Hret.
  destruct (getAmountIn_quote _ _ _ _ _ Uf Ua Ui Uo Hf Ha Hi Hlt Hret)
    as (Hr & Hpay).
  unfold u64 in *.
  set (g := r * (reserveOut - amountOut)) in *.
  assert (Hg : 0 <= g) by (apply Z.mul_nonneg_nonneg; lia).
  assert (Hfee : g * (10000 - feeRate) <= g * 10000)
    by (apply Z.mul_le_mono_nonneg_l; lia).
  assert (Hpay' : reserveIn * amountOut * 10000 < g * (10000 - feeRate)).
  { replace (g * (10000 - feeRate))
      with (r * ((reserveOut - amountOut) * (10000 - feeRate)))
      by (unfold g; ring).
    exact Hpay. }
  assert (Hk : reserveIn * reserveOut
               < (reserveIn + r) * (reserveOut - amountOut)).
  { replace ((reserveIn + r) * (reserveOut - amountOut))
      with (reserveIn * reserveOut - reserveIn * amountOut + g)
      by (unfold g; ring).
    lia. }
  split; [exact Hk|].
  rewrite plus_ofZ, minus_ofZ, assertLpValueIsIncreased_ofZ.
  destruct (Z.ltb_spec ((reserveIn + r) * (reserveOut - amountOut))
                       (reserveIn * reserveOut)); [lia|reflexivity].
Qed.

Lemma getAmountIn_constant_product_increases_witness :
  u64 30 /\ u64 1992 /\ u64 1000000 /\ u64 2000000 /\
  1000000 * 2000000 < (1000000 + 1000) * (2000000 - 1992) /\
  assertLpValueIsIncreased
    (ofZ 1000000) (ofZ 2000000)
    (plus (ofZ 1000000) (ofZ 1000)) (minus (ofZ 2000000) (ofZ 1992))
  = Ok tt.
Proof.
  assert (H30 : u64 30) by (unfold u64; lia).
  assert (H1992 : u64 1992) by (unfold u64; lia).
  assert (H1e6 : u64 1000000) by (unfold u64; lia).
  assert (H2e6 : u64 2000000) by (unfold u64; lia).
  repeat (split; [assumption|]).
  refine (getAmountIn_constant_product_increases 30 1992 1000000 2000000 1000
            H30 H1992 H1e6 H2e6 _ _ _ _ _); try lia.
  reflexivity.
Defined.

(** X6. [getAmountIn] checks its arguments in the same order as
    [getAmountOut]: InvalidFeeRate for every feeRate > 2000 whatever the other
    arguments are; with feeRate <= 2000, ZeroAmount when amountOut = 0; with
    feeRate <= 2000 and amountOut > 0, EmptyReserves when reserveIn = 0 or
    reserveOut = 0. *)
Theorem getAmountIn_guards :
  (forall (feeRate : Z) (amountOut reserveIn reserveOut : BigNumber),
     2000 < feeRate ->
     getAmountIn (ofZ feeRate) amountOut reserveIn reserveOut
     = Throw InvalidFeeRate) /\
  (forall (feeRate : Z) (reserveIn reserveOut : BigNumber),
     feeRate <= 2000 ->
     getAmountIn (ofZ feeRate) (ofZ 0) reserveIn reserveOut
     = Throw ZeroAmount) /\
  (forall feeRate amountOut reserveIn reserveOut : Z,
     feeRate <= 2000 -> 0 < amountOut ->
     reserveIn = 0 \/ reserveOut = 0 ->
     getAmountIn (ofZ feeRate) (ofZ amountOut) (ofZ reserveIn) (ofZ reserveOut)
     = Throw EmptyReserves).
Proof.
  split; [|split].
  - intros feeRate amountOut reserveIn reserveOut Hf.
    unfold getAmountIn, MAX_FEE_RATE. rewrite isGreaterThan_ofZ.
    destruct (Z.ltb_spec 2000 feeRate); [reflexivity|lia].
  - intros feeRate reserveIn reserveOut Hf.
    unfold getAmountIn, MAX_FEE_RATE. rewrite isGreaterThan_ofZ.
    destruct (Z.ltb_spec 2000 feeRate); [lia|reflexivity].
  - intros feeRate amountOut reserveIn reserveOut Hf Ha Hr.
    unfold getAmountIn, MAX_FEE_RATE. autorewrite with bn.
    destruct (Z.ltb_spec 2000 feeRate); [lia|].
    destruct (Z.eqb_spec amountOut 0); [lia|].
    destruct Hr as [-> | ->]; cbn [Z.eqb orb]; [reflexivity|].
    now rewrite orb_true_r.
Qed.

Lemma getAmountIn_guards_witness :
  getAmountIn (ofZ 2001) (ofZ 5) (ofZ 7) (ofZ 9) = Throw InvalidFeeRate /\
  getAmountIn (ofZ 30) (ofZ 0) (ofZ 7) (ofZ 9) = Throw ZeroAmount /\
  getAmountIn (ofZ 30) (ofZ 5) (ofZ 7) (ofZ 0) = Throw EmptyReserves.
Proof.
  destruct getAmountIn_guards as (Hinv & Hzero & Hempty).
  split; [apply Hinv; lia|].
  split; [apply Hzero; lia|].
  apply Hempty; [lia|lia|right; reflexivity].
Defined.

(** X7. While the denominator (reserveOut - amountOut) * (10000 - feeRate)
    stays below 2 * 10^20, [getAmountIn] is one more than the floor of the
    exact quotient, returned when it fits in 64 bits and refused with
    Overflow otherwise. *)
Theorem getAmountIn_floor_plus_one
    (feeRate amountOut reserveIn reserveOut : Z) :
  u64 feeRate -> u64 amountOut -> u64 reserveIn -> u64 reserveOut ->
  feeRate <= 2000 -> 0 < amountOut -> 0 < reserveIn ->
  amountOut < reserveOut ->
  (reserveOut - amountOut) * (10000 - feeRate) < 2 * E20 ->
  getAmountIn (ofZ feeRate) (ofZ amountOut) (ofZ reserveIn) (ofZ reserveOut)
  = let amountIn :=
      reserveIn * amountOut * 10000
      / ((reserveOut - amountOut) * (10000 - feeRate)) + 1 in
    if 18446744073709551615 <? amountIn then Throw Overflow
    else Ok (ofZ amountIn).
Proof.
  unfold u64. intros Uf Ua Ui Uo Hf Ha Hi Hlt Hsmall.
  assert (Hden : 0 < (reserveOut - amountOut) * (10000 - feeRate))
    by (apply Z.mul_pos_pos; lia).
  assert (Hnum : 0 <= reserveIn * amountOut * 10000)
    by (repeat apply Z.mul_nonneg_nonneg; lia).
  rewrite getAmountIn_ofZ by lia.
  now rewrite div20_exact by assumption.
Qed.

Lemma getAmountIn_floor_plus_one_witness :
  u64 30 /\ u64 1992 /\ u64 1000000 /\ u64 2000000 /\
  getAmountIn (ofZ 30) (ofZ 1992) (ofZ 1000000) (ofZ 2000000)
  = let amountIn :=
      1000000 * 1992 * 10000 / ((2000000 - 1992) * (10000 - 30)) + 1 in
    if 18446744073709551615 <? amountIn then Throw Overflow
    else Ok (ofZ amountIn).
Proof.
  assert (H30 : u64 30) by (unfold u64; lia).
  assert (H1992 : u64 1992) by (unfold u64; lia).
  assert (H1e6 : u64 1000000) by (unfold u64; lia).
  assert (H2e6 : u64 2000000) by (unfold u64; lia).
  repeat (split; [assumption|]).
  refine (getAmountIn_floor_plus_one 30 1992 1000000 2000000
            H30 H1992 H1e6 H2e6 _ _ _ _ _); try lia.
  reflexivity.
Defined.

(** X8. With a zero fee rate the amount [getAmountOut] logs and the amount
    it returns agree: on valid 64-bit inputs both are
    floor (reserveOut * amountIn / (reserveIn + amountIn)), the fee-free
    constant-product formula of the comment in the source. *)
Theorem getAmountOut_zero_fee (amountIn reserveIn reserveOut : Z) :
  u64 amountIn -> u64 reserveIn -> u64 reserveOut ->
  0 < amountIn -> 0 < reserveIn -> 0 < reserveOut ->
  getAmountOut (ofZ 0) (ofZ amountIn) (ofZ reserveIn) (ofZ reserveOut)
  = Ok (ofZ (reserveOut * amountIn / (reserveIn + amountIn))) /\
  getAmountOut_console (ofZ 0) (ofZ amountIn) (ofZ reserveIn) (ofZ reserveOut)
  = [ofZ (reserveOut * amountIn / (reserveIn + amountIn))].
Proof.
  unfold u64. intros Ua Ui Uo Ha Hi Ho.
  split.
  - rewrite getAmountOut_returns by (unfold u64; lia).
    f_equal. f_equal.
    replace (10000 - 0) with 10000 by reflexivity.
    set (N := amountIn * 10000 * reserveOut).
    set (D := reserveIn * 10000 + amountIn * 10000).
    assert (HN : 0 <= N)
      by (unfold N; repeat apply Z.mul_nonneg_nonneg; lia).
    assert (HD : 0 < D) by (unfold D; lia).
    assert (Hq : N / D = reserveOut * amountIn / (reserveIn + amountIn)).
    { unfold N, D.
      replace (amountIn * 10000 * reserveOut)
        with (10000 * (reserveOut * amountIn)) by ring.
      replace (reserveIn * 10000 + amountIn * 10000)
        with (10000 * (reserveIn + amountIn)) by ring.
      apply Z.div_mul_cancel_l; lia. }
    rewrite <- Hq.
    pose proof (div20_lower N D HN HD) as Hlow.
    pose proof (div20_gap N D HN HD) as G. unfold E20 in G.
    set (o := div20 N D) in *.
    assert (Hk : o * D - N
                 = 10000 * (o * (reserveIn + amountIn) - amountIn * reserveOut))
      by (unfold N, D; ring).
    assert (Hle : o * D <= N) by (unfold D in *; lia).
    assert (o <= N / D) by (apply Z.div_le_lower_bound; lia).
    lia.
  - unfold getAmountOut_console. cbn [isZero ofZ Z.eqb].
    fold (ofZ reserveOut) (ofZ amountIn) (ofZ reserveIn).
    rewrite multipliedBy_ofZ, plus_ofZ, idiv_ofZ by lia.
    rewrite div20_exact;
      [reflexivity|apply Z.mul_nonneg_nonneg; lia|lia|unfold E20; lia].
Qed.

Lemma getAmountOut_zero_fee_witness :
  u64 1000 /\ u64 1000000 /\ u64 2000000 /\
  getAmountOut (ofZ 0) (ofZ 1000) (ofZ 1000000) (ofZ 2000000)
  = Ok (ofZ (2000000 * 1000 / (1000000 + 1000))) /\
  getAmountOut_console (ofZ 0) (ofZ 1000) (ofZ 1000000) (ofZ 2000000)
  = [ofZ (2000000 * 1000 / (1000000 + 1000))].
Proof.
  assert (H1000 : u64 1000) by (unfold u64; lia).
  assert (H1e6 : u64 1000000) by (unfold u64; lia).
  assert (H2e6 : u64 2000000) by (unfold u64; lia).
  repeat (split; [assumption|]).
  exact (getAmountOut_zero_fee 1000 1000000 2000000 H1000 H1e6 H2e6
           ltac:(lia) ltac:(lia) ltac:(lia)).
Defined.

(** ** [getFeeToTeam] and proportional shares *)

(** X9. [getFeeToTeam] checks no fee-rate cap.  For a 64-bit coinIn and any
    feeRate up to 10000 it returns, and the two nested floors amount to one:
    the result is floor (coinIn * feeRate / 50000), at most a fifth of
    coinIn. *)
Theorem getFeeToTeam_fifth_of_fee (feeRate coinIn : Z) :
  u64 coinIn -> 0 <= feeRate <= 10000 ->
  getFeeToTeam (ofZ feeRate) (ofZ coinIn)
  = Ok (ofZ (coinIn * feeRate / 50000)) /\
  5 * (coinIn * feeRate / 50000) <= coinIn.
Proof.
  unfold u64. intros Uc Hf.
  assert (Hp : 0 <= coinIn * feeRate) by (apply Z.mul_nonneg_nonneg; lia).
  assert (Hfee : coinIn * feeRate / 10000 <= coinIn).
  { apply Z.div_le_upper_bound; [lia|].
    replace (10000 * coinIn) with (coinIn * 10000) by ring.
    apply Z.mul_le_mono_nonneg_l; lia. }
  assert (Hfee0 : 0 <= coinIn * feeRate / 10000) by (apply Z.div_pos; lia).
  assert (Hnest : coinIn * feeRate / 10000 / 5 = coinIn * feeRate / 50000)
    by (rewrite Z.div_div by lia; reflexivity).
  split.
  - unfold getFeeToTeam, FEE_SCALE.
    rewrite mulDiv_ofZ by lia.
    rewrite div20_exact by (unfold E20; lia).
    destruct (Z.ltb_spec 18446744073709551615 (coinIn * feeRate / 10000));
      [lia|].
    cbn [bind]. rewrite idiv_ofZ by lia.
    rewrite div20_exact by (unfold E20; lia).
    now rewrite Hnest.
  - rewrite <- Hnest.
    pose proof (Z.mul_div_le (coinIn * feeRate / 10000) 5 ltac:(lia)).
    lia.
Qed.

Lemma getFeeToTeam_fifth_of_fee_witness :
  u64 1000000 /\
  getFeeToTeam (ofZ 30) (ofZ 1000000) = Ok (ofZ (1000000 * 30 / 50000)) /\
  5 * (1000000 * 30 / 50000) <= 1000000.
Proof.
  assert (H : u64 1000000) by (unfold u64; lia).
  split; [assumption|].
  exact (getFeeToTeam_fifth_of_fee 30 1000000 H ltac:(lia)).
Defined.

(** X10. A proportional share never exceeds the whole.  For 64-bit operands
    with 0 < z and y <= z, [mulDiv x y z] returns floor (x * y / z), which is
    at most x: the amounts quoted for removing liquidity
    ([mulDiv balance removeLpAmount lpSupply]) cannot overflow or exceed the
    pool balance while removeLpAmount <= lpSupply. *)
Theorem mulDiv_share (x y z : Z) :
  u64 x -> u64 y -> u64 z -> 0 < z -> y <= z ->
  mulDiv (ofZ x) (ofZ y) (ofZ z) = Ok (ofZ (x * y / z)) /\
  0 <= x * y / z <= x.
Proof.
  unfold u64. intros Ux Uy Uz Hz Hyz.
  assert (Hp : 0 <= x * y) by (apply Z.mul_nonneg_nonneg; lia).
  assert (Hle : 0 <= x * y / z <= x).
  { split; [apply Z.div_pos; lia|].
    apply Z.div_le_upper_bound; [lia|].
    replace (z * x) with (x * z) by ring.
    apply Z.mul_le_mono_nonneg_l; lia. }
  split; [|exact Hle].
  rewrite mulDiv_ofZ by lia.
  rewrite div20_exact by (unfold E20; lia).
  destruct (Z.ltb_spec 18446744073709551615 (x * y / z)); [lia|reflexivity].
Qed.

Lemma mulDiv_share_witness :
  u64 2000 /\ u64 300 /\ u64 1000 /\
  mulDiv (ofZ 2000) (ofZ 300) (ofZ 1000) = Ok (ofZ (2000 * 300 / 1000)) /\
  0 <= 2000 * 300 / 1000 <= 2000.
Proof.
  assert (H2000 : u64 2000) by (unfold u64; lia).
  assert (H300 : u64 300) by (unfold u64; lia).
  assert (H1000 : u64 1000) by (unfold u64; lia).
  repeat (split; [assumption|]).
  exact (mulDiv_share 2000 300 1000 H2000 H300 H1000 ltac:(lia) ltac:(lia)).
Defined.

(** ** Adding liquidity *)

(** X11. On 64-bit amounts with both reserves positive,
    [calcOptimalCoinValues] is decided by yReturned =
    floor (xDesired * yReserve / xReserve): it fails, with Overflow, exactly
    when yReturned exceeds U64_MAX (however small yDesired is); it returns
    (xDesired, yReturned) when yReturned <= yDesired; and otherwise it returns
    (floor (yDesired * xReserve / yReserve), yDesired). *)
Theorem calcOptimalCoinValues_cases
    (xDesired yDesired xReserve yReserve : Z) :
  u64 xDesired -> u64 yDesired -> u64 xReserve -> u64 yReserve ->
  0 < xReserve -> 0 < yReserve ->
  calcOptimalCoinValues
    (ofZ xDesired) (ofZ yDesired) (ofZ xReserve) (ofZ yReserve)
  = let yReturned := xDesired * yReserve / xReserve in
    if 18446744073709551615 <? yReturned then Throw Overflow
    else if yReturned <=? yDesired then Ok (ofZ xDesired, ofZ yReturned)
    else Ok (ofZ (yDesired * xReserve / yReserve), ofZ yDesired).
Proof.
  unfold u64. intros UxD UyD UxR UyR HxR HyR. cbv zeta.
  assert (Hy : div20 (xDesired * yReserve) xReserve
               = xDesired * yReserve / xReserve).
  { apply div20_exact; [apply Z.mul_nonneg_nonneg| |unfold E20]; lia. }
  assert (Hx : div20 (yDesired * xReserve) yReserve
               = yDesired * xReserve / yReserve).
  { apply div20_exact; [apply Z.mul_nonneg_nonneg| |unfold E20]; lia. }
  unfold calcOptimalCoinValues. autorewrite with bn.
  destruct (Z.eqb_spec xReserve 0) as [|_]; [lia|]. cbn [andb].
  rewrite (mulDiv_ofZ xDesired yReserve xReserve), Hy by lia.
  destruct (18446744073709551615 <? xDesired * yReserve / xReserve);
    [reflexivity|].
  cbn [bind]. autorewrite with bn.
  destruct (Z.leb_spec (xDesired * yReserve / xReserve) yDesired) as [|Hlt];
    [reflexivity|].
  assert (Hb : 0 <= yDesired * xReserve / yReserve <= xDesired).
  { split.
    - apply Z.div_pos; [apply Z.mul_nonneg_nonneg|]; lia.
    - apply Z.div_le_upper_bound; [lia|].
      assert (xReserve * (xDesired * yReserve / xReserve)
              <= xDesired * yReserve) by (apply Z.mul_div_le; lia).
      assert (xReserve * (yDesired + 1)
              <= xReserve * (xDesired * yReserve / xReserve))
        by (apply Z.mul_le_mono_nonneg_l; lia).
      lia. }
  rewrite (mulDiv_ofZ yDesired xReserve yReserve), Hx by lia.
  destruct (Z.ltb_spec 18446744073709551615 (yDesired * xReserve / yReserve));
    [lia|].
  cbn [bind]. autorewrite with bn.
  destruct (Z.ltb_spec xDesired (yDesired * xReserve / yReserve));
    [lia|reflexivity].
Qed.

Lemma calcOptimalCoinValues_cases_witness :
  u64 100 /\ u64 50 /\ u64 1000 /\ u64 2000 /\
  calcOptimalCoinValues (ofZ 100) (ofZ 50) (ofZ 1000) (ofZ 2000)
  = let yReturned := 100 * 2000 / 1000 in
    if 18446744073709551615 <? yReturned then Throw Overflow
    else if yReturned <=? 50 then Ok (ofZ 100, ofZ yReturned)
    else Ok (ofZ (50 * 1000 / 2000), ofZ 50).
Proof.
  assert (H100 : u64 100) by (unfold u64; lia).
  assert (H50 : u64 50) by (unfold u64; lia).
  assert (H1000 : u64 1000) by (unfold u64; lia).
  assert (H2000 : u64 2000) by (unfold u64; lia).
  repeat (split; [assumption|]).
  exact (calcOptimalCoinValues_cases 100 50 1000 2000
           H100 H50 H1000 H2000 ltac:(lia) ltac:(lia)).
Defined.

(** The subsequent-deposit branch of [getExpectedLiquidityAmount] on 64-bit
    amounts with positive reserves. *)
Lemma getExpectedLiquidityAmount_subsequent
    (xOpt yOpt xReserve yReserve lpSupply : Z) :
  u64 xOpt -> u64 yOpt -> u64 xReserve -> u64 yReserve -> u64 lpSupply ->
  0 < xReserve -> 0 < yReserve ->
  getExpectedLiquidityAmount
    (ofZ xOpt) (ofZ yOpt) (ofZ xReserve) (ofZ yReserve) (ofZ lpSupply)
  = if 18446744073709551615
       <? Z.min (lpSupply * xOpt / xReserve) (lpSupply * yOpt / yReserve)
    then Throw Overflow
    else Ok (ofZ (Z.min (lpSupply * xOpt / xReserve)
                        (lpSupply * yOpt / yReserve))).
Proof.
  unfold u64. intros Ux Uy UxR UyR Ulp HxR HyR.
  unfold getExpectedLiquidityAmount, U64_MAX. autorewrite with bn.
  destruct (Z.eqb_spec xReserve 0) as [|_]; [lia|]. cbn [andb].
  rewrite !idiv_ofZ by lia.
  rewrite !div20_exact
    by (try apply Z.mul_nonneg_nonneg; unfold E20; lia).
  autorewrite with bn.
  destruct (Z.ltb_spec (lpSupply * xOpt / xReserve)
                       (lpSupply * yOpt / yReserve)) as [Hlt|Hge].
  - now rewrite Z.min_l by lia.
  - now rewrite Z.min_r by lia.
Qed.

(** X12. Minting never dilutes the existing holders.  On 64-bit amounts with
    positive reserves, whatever [getExpectedLiquidityAmount] returns is an
    integer lpMinted with lpMinted * xReserve <= lpSupply * xOpt and
    lpMinted * yReserve <= lpSupply * yOpt: the minted share of the supply is
    at most the contributed share of either reserve. *)
Theorem getExpectedLiquidityAmount_no_dilution
    (xOpt yOpt xReserve yReserve lpSupply : Z) (minted : BigNumber) :
  u64 xOpt -> u64 yOpt -> u64 xReserve -> u64 yReserve -> u64 lpSupply ->
  0 < xReserve -> 0 < yReserve ->
  getExpectedLiquidityAmount
    (ofZ xOpt) (ofZ yOpt) (ofZ xReserve) (ofZ yReserve) (ofZ lpSupply)
  = Ok minted ->
  exists lpMinted : Z,
    minted = ofZ lpMinted /\
    0 <= lpMinted /\
    lpMinted * xReserve <= lpSupply * xOpt /\
    lpMinted * yReserve <= lpSupply * yOpt.
Proof.
  intros Ux Uy UxR UyR Ulp HxR HyR Hret.
  rewrite getExpectedLiquidityAmount_subsequent in Hret by assumption.
  unfold u64 in *.
  set (xLiq := lpSupply * xOpt / xReserve) in *.
  set (yLiq := lpSupply * yOpt / yReserve) in *.
  destruct (18446744073709551615 <? Z.min xLiq yLiq); [discriminate|].
  exists (Z.min xLiq yLiq).
  split; [congruence|].
  assert (Hx0 : 0 <= xLiq)
    by (apply Z.div_pos; [apply Z.mul_nonneg_nonneg|]; lia).
  assert (Hy0 : 0 <= yLiq)
    by (apply Z.div_pos; [apply Z.mul_nonneg_nonneg|]; lia).
  assert (Hx : xReserve * xLiq <= lpSupply * xOpt)
    by (apply Z.mul_div_le; lia).
  assert (Hy : yReserve * yLiq <= lpSupply * yOpt)
    by (apply Z.mul_div_le; lia).
  assert (Hmx : xReserve * Z.min xLiq yLiq <= xReserve * xLiq)
    by (apply Z.mul_le_mono_nonneg_l; lia).
  assert (Hmy : yReserve * Z.min xLiq yLiq <= yReserve * yLiq)
    by (apply Z.mul_le_mono_nonneg_l; lia).
  split; [lia|]. split; lia.
Qed.

Lemma getExpectedLiquidityAmount_no_dilution_witness :
  u64 100 /\ u64 200 /\ u64 1000 /\ u64 2000 /\
  exists lpMinted : Z,
    ofZ 100 = ofZ lpMinted /\
    0 <= lpMinted /\
    lpMinted * 1000 <= 1000 * 100 /\
    lpMinted * 2000 <= 1000 * 200.
Proof.
  assert (H100 : u64 100) by (unfold u64; lia).
  assert (H200 : u64 200) by (unfold u64; lia).
  assert (H1000 : u64 1000) by (unfold u64; lia).
  assert (H2000 : u64 2000) by (unfold u64; lia).
  repeat (split; [assumption|]).
  refine (getExpectedLiquidityAmount_no_dilution 100 200 1000 2000 1000
            (ofZ 100) H100 H200 H1000 H2000 H1000 _ _ _); try lia.
  reflexivity.
Defined.

(** X13. A first deposit too small to clear the 1000-unit lock is not
    refused.  On 64-bit amounts with xOpt * yOpt < 1000000, the first-deposit
    branch of [getExpectedLiquidityAmount] returns the negative amount
    floor (sqrt (xOpt * yOpt)) - 1000. *)
Theorem getExpectedLiquidityAmount_small_first_deposit (xOpt yOpt : Z) :
  u64 xOpt -> u64 yOpt -> xOpt * yOpt < 1000000 ->
  getExpectedLiquidityAmount (ofZ xOpt) (ofZ yOpt) (ofZ 0) (ofZ 0) (ofZ 0)
  = Ok (ofZ (Z.sqrt (xOpt * yOpt) - 1000)) /\
  Z.sqrt (xOpt * yOpt) - 1000 < 0.
Proof.
  intros Ux Uy Hsmall.
  pose proof (sqrt_u64_product xOpt yOpt Ux Uy) as Hs.
  unfold u64 in *.
  assert (Hp : 0 <= xOpt * yOpt) by (apply Z.mul_nonneg_nonneg; lia).
  assert (Hneg : Z.sqrt (xOpt * yOpt) < 1000).
  { apply Z.sqrt_lt_square; lia. }
  split; [|lia].
  unfold getExpectedLiquidityAmount, U64_MAX.
  cbn [isZero ofZ Z.eqb andb]. fold (ofZ xOpt) (ofZ yOpt) (ofZ 1000).
  fold (ofZ 18446744073709551615).
  rewrite multipliedBy_ofZ, isqrt_ofZ by exact Hp.
  rewrite sqrt20_exact by (try exact Hp; unfold E20; lia).
  autorewrite with bn.
  destruct (Z.ltb_spec 18446744073709551615 (Z.sqrt (xOpt * yOpt) - 1000));
    [lia|reflexivity].
Qed.

Lemma getExpectedLiquidityAmount_small_first_deposit_witness :
  u64 10 /\ u64 20 /\
  getExpectedLiquidityAmount (ofZ 10) (ofZ 20) (ofZ 0) (ofZ 0) (ofZ 0)
  = Ok (ofZ (Z.sqrt (10 * 20) - 1000)) /\
  Z.sqrt (10 * 20) - 1000 < 0.
Proof.
  assert (H10 : u64 10) by (unfold u64; lia).
  assert (H20 : u64 20) by (unfold u64; lia).
  repeat (split; [assumption|]).
  exact (getExpectedLiquidityAmount_small_first_deposit 10 20 H10 H20
           ltac:(lia)).
Defined.

(** X14. On a pool holding X only (xReserve > 0, yReserve = 0) the
    add-liquidity quote is not a number.  [calcOptimalCoinValues] returns
    (xDesired, 0), and on that pair [getExpectedLiquidityAmount] divides 0 by
    the zero Y reserve: the Y candidate is NaN, every comparison with it is
    false, and NaN is returned without any failure. *)
Theorem add_liquidity_quote_NaN (xDesired yDesired xReserve lpSupply : Z) :
  u64 xDesired -> u64 yDesired -> u64 xReserve -> u64 lpSupply ->
  0 < xReserve ->
  (let* optimal :=
     calcOptimalCoinValues
       (ofZ xDesired) (ofZ yDesired) (ofZ xReserve) (ofZ 0) in
   getExpectedLiquidityAmount
     (fst optimal) (snd optimal) (ofZ xReserve) (ofZ 0) (ofZ lpSupply))
  = Ok NaN.
Proof.
  unfold u64. intros UxD UyD UxR Ulp HxR.
  assert (Hcalc : calcOptimalCoinValues
                    (ofZ xDesired) (ofZ yDesired) (ofZ xReserve) (ofZ 0)
                  = Ok (ofZ xDesired, ofZ 0)).
  { unfold calcOptimalCoinValues. autorewrite with bn.
    destruct (Z.eqb_spec xReserve 0) as [|_]; [lia|]. cbn [andb].
    rewrite mulDiv_ofZ by lia. rewrite Z.mul_0_r.
    assert (Hz : div20 0 xReserve = 0).
    { rewrite div20_exact by (unfold E20; lia).
      now apply Z.div_0_l, Z.neq_sym, Z.lt_neq. }
    rewrite Hz. cbn [Z.ltb Z.compare bind]. autorewrite with bn.
    destruct (Z.leb_spec 0 yDesired); [reflexivity|lia]. }
  rewrite Hcalc. cbn [bind fst snd].
  unfold getExpectedLiquidityAmount. autorewrite with bn.
  destruct (Z.eqb_spec xReserve 0) as [|_]; [lia|]. cbn [andb].
  rewrite idiv_ofZ by lia. rewrite Z.mul_0_r.
  reflexivity.
Qed.

Lemma add_liquidity_quote_NaN_witness :
  u64 100 /\ u64 300 /\ u64 1000 /\ u64 5000 /\
  (let* optimal :=
     calcOptimalCoinValues (ofZ 100) (ofZ 300) (ofZ 1000) (ofZ 0) in
   getExpectedLiquidityAmount
     (fst optimal) (snd optimal) (ofZ 1000) (ofZ 0) (ofZ 5000))
  = Ok NaN.
Proof.
  assert (H100 : u64 100) by (unfold u64; lia).
  assert (H300 : u64 300) by (unfold u64; lia).
  assert (H1000 : u64 1000) by (unfold u64; lia).
  assert (H5000 : u64 5000) by (unfold u64; lia).
  repeat (split; [assumption|]).
  exact (add_liquidity_quote_NaN 100 300 1000 5000
           H100 H300 H1000 H5000 ltac:(lia)).
Defined.

(** ** utils: comparing byte arrays *)

Import Utils.

Lemma compareByteArrays_cases (bytesX bytesY : list N) :
  compareByteArrays bytesX bytesY = EQUAL \/
  compareByteArrays bytesX bytesY = LESS_THAN \/
  compareByteArrays bytesX bytesY = GREATER_THAN.
Proof.
  revert bytesY. induction bytesX as [|x restX IH]; intros [|y restY];
    cbn [compareByteArrays]; auto.
  destruct (x <? y)%N; [auto|]. destruct (y <? x)%N; auto.
Qed.

Lemma compareByteArrays_equal_and_swap_aux (bytesX bytesY : list N) :
  (compareByteArrays bytesX bytesY = EQUAL <-> bytesX = bytesY) /\
  (compareByteArrays bytesX bytesY = LESS_THAN
   <-> compareByteArrays bytesY bytesX = GREATER_THAN).
Proof.
  revert bytesY. induction bytesX as [|x restX IH]; intros [|y restY];
    cbn [compareByteArrays].
  - split; split; intros H; try reflexivity; discriminate H.
  - split; split; intros H; try reflexivity; discriminate H.
  - split; split; intros H; discriminate H.
  - destruct (IH restY) as (IHeq & IHswap).
    destruct (N.ltb_spec x y) as [Hxy|Hxy].
    + destruct (N.ltb_spec y x) as [Hyx|Hyx]; [lia|].
      split; split; intros H; try reflexivity; try discriminate H.
      injection H as Heq _. lia.
    + destruct (N.ltb_spec y x) as [Hyx|Hyx].
      * split; split; intros H; try discriminate H.
        injection H as Heq _. lia.
      * assert (x = y) by lia. subst y.
        split; [|exact IHswap].
        split; intros H.
        -- f_equal. now apply IHeq.
        -- injection H as H. now apply IHeq.
Qed.

(** X15. [compareByteArrays] answers EQUAL exactly on equal arrays, and
    exchanging the two arrays exchanges LESS_THAN and GREATER_THAN; so two
    different arrays are LESS_THAN in exactly one of the two orders. *)
Theorem compareByteArrays_equal_and_swap (bytesX bytesY : list N) :
  (compareByteArrays bytesX bytesY = EQUAL <-> bytesX = bytesY) /\
  (compareByteArrays bytesX bytesY = LESS_THAN
   <-> compareByteArrays bytesY bytesX = GREATER_THAN) /\
  (bytesX <> bytesY ->
   (compareByteArrays bytesX bytesY = LESS_THAN /\
    compareByteArrays bytesY bytesX <> LESS_THAN) \/
   (compareByteArrays bytesY bytesX = LESS_THAN /\
    compareByteArrays bytesX bytesY <> LESS_THAN)).
Proof.
  destruct (compareByteArrays_equal_and_swap_aux bytesX bytesY)
    as (Heq & Hswap).
  destruct (compareByteArrays_equal_and_swap_aux bytesY bytesX)
    as (_ & Hswap').
  split; [exact Heq|]. split; [exact Hswap|].
  intros Hne.
  destruct (compareByteArrays_cases bytesX bytesY) as [H|[H|H]].
  - exfalso. apply Hne. now apply Heq.
  - left. split; [exact H|]. apply Hswap in H. rewrite H. discriminate.
  - right. split; [now apply Hswap'|]. rewrite H. discriminate.
Qed.

Lemma compareByteArrays_equal_and_swap_witness :
  [1; 2]%N <> [1; 3]%N /\
  compareByteArrays [1; 2]%N [1; 3]%N = LESS_THAN /\
  compareByteArrays [1; 3]%N [1; 2]%N <> LESS_THAN.
Proof.
  assert (Hne : [1; 2]%N <> [1; 3]%N) by discriminate.
  split; [exact Hne|].
  destruct (compareByteArrays_equal_and_swap [1; 2]%N [1; 3]%N)
    as (_ & _ & Hone).
  destruct (Hone Hne) as [Hl|(_ & Hr)]; [exact Hl|].
  exfalso. apply Hr. reflexivity.
Defined.

(** X16. LESS_THAN is transitive: [compareByteArrays] orders byte arrays
    consistently. *)
Theorem compareByteArrays_transitive (bytesX bytesY bytesZ : list N) :
  compareByteArrays bytesX bytesY = LESS_THAN ->
  compareByteArrays bytesY bytesZ = LESS_THAN ->
  compareByteArrays bytesX bytesZ = LESS_THAN.
Proof.
  revert bytesY bytesZ.
  induction bytesX as [|x restX IH]; intros [|y restY] [|z restZ];
    cbn [compareByteArrays]; try reflexivity; try discriminate.
  destruct (N.ltb_spec x y) as [Hxy|Hxy].
  - intros _. destruct (N.ltb_spec y z) as [Hyz|Hyz].
    + intros _. destruct (N.ltb_spec x z); [reflexivity|lia].
    + destruct (N.ltb_spec z y); [discriminate|]. intros _.
      destruct (N.ltb_spec x z); [reflexivity|lia].
  - destruct (N.ltb_spec y x) as [Hyx|Hyx]; [discriminate|].
    assert (x = y) by lia. subst y. intros Hrest.
    destruct (N.ltb_spec x z) as [Hxz|Hxz]; [reflexivity|].
    destruct (N.ltb_spec z x) as [Hzx|Hzx]; [discriminate|].
    intros Hrest'. exact (IH _ _ Hrest Hrest').
Qed.

Lemma compareByteArrays_transitive_witness :
  compareByteArrays [1; 2]%N [1; 3]%N = LESS_THAN /\
  compareByteArrays [1; 3]%N [1; 3; 0]%N = LESS_THAN /\
  compareByteArrays [1; 2]%N [1; 3; 0]%N = LESS_THAN.
Proof.
  assert (H1 : compareByteArrays [1; 2]%N [1; 3]%N = LESS_THAN)
    by reflexivity.
  assert (H2 : compareByteArrays [1; 3]%N [1; 3; 0]%N = LESS_THAN)
    by reflexivity.
  split; [exact H1|]. split; [exact H2|].
  exact (compareByteArrays_transitive _ _ _ H1 H2).
Defined.

(** X17. A proper prefix sorts first, and otherwise the first differing byte
    decides, whatever follows it. *)
Theorem compareByteArrays_lexicographic
    (common restX restY : list N) (x y : N) :
  (restY <> [] -> compareByteArrays common (common ++ restY) = LESS_THAN) /\
  ((x < y)%N ->
   compareByteArrays (common ++ x :: restX) (common ++ y :: restY)
   = LESS_THAN).
Proof.
  induction common as [|c common IH]; cbn [compareByteArrays app].
  - split.
    + destruct restY; [congruence|reflexivity].
    + intros Hxy. destruct (N.ltb_spec x y); [reflexivity|lia].
  - rewrite N.ltb_irrefl. exact IH.
Qed.

Lemma compareByteArrays_lexicographic_witness :
  compareByteArrays [7; 8]%N ([7; 8] ++ [0])%N = LESS_THAN /\
  compareByteArrays ([7; 8] ++ 1 :: [9; 9])%N ([7; 8] ++ 2 :: [])%N
  = LESS_THAN.
Proof.
  destruct (compareByteArrays_lexicographic [7; 8]%N [9; 9]%N [0]%N 1%N 2%N)
    as (Hprefix & _).
  destruct (compareByteArrays_lexicographic [7; 8]%N [9; 9]%N []%N 1%N 2%N)
    as (_ & Hdiff).
  split; [apply Hprefix; discriminate|apply Hdiff; reflexivity].
Defined.

(** ** utils: serialized type names *)

Lemma ulebEncode_short (n : N) : (n <= 1024)%N -> ulebEncode n = uleb_short n.
Proof.
  intros Hn.
  assert (Hall : forallb
                   (fun k => if list_eq_dec N.eq_dec
                                  (ulebEncode (N.of_nat k))
                                  (uleb_short (N.of_nat k))
                             then true else false)
                   (seq 0 1025) = true) by (vm_compute; reflexivity).
  rewrite forallb_forall in Hall.
  specialize (Hall (N.to_nat n)).
  rewrite N2Nat.id in Hall.
  destruct (list_eq_dec N.eq_dec (ulebEncode n) (uleb_short n)) as [Heq|_];
    [exact Heq|].
  assert (Hin : In (N.to_nat n) (seq 0 1025)) by (apply in_seq; lia).
  specialize (Hall Hin). discriminate Hall.
Qed.

Lemma uleb_short_length (n : N) : (length (uleb_short n) <= 2)%nat.
Proof. unfold uleb_short. destruct (n <? 128)%N; cbn; lia. Qed.


Lemma utf8_length (c : N) : (1 <= length (utf8 c) <= 2)%nat.
Proof. unfold utf8. destruct (c <? 128)%N; cbn; lia. Qed.

Lemma TextEncoder_encode_length (s : string) :
  (length (TextEncoder_encode s) <= 2 * String.length s)%nat.
Proof.
  induction s as [|c rest IH];
    cbn [TextEncoder_encode String.length List.length]; [lia|].
  rewrite length_app. pose proof (utf8_length (N_of_ascii c)). lia.
Qed.

Lemma TextEncoder_encode_7bit (s : string) :
  is7bit s = true ->
  length (TextEncoder_encode s) = String.length s.
Proof.
  induction s as [|c rest IH]; cbn [TextEncoder_encode String.length is7bit];
    [reflexivity|].
  intros H. apply andb_prop in H as (Hc & Hrest).
  unfold utf8. rewrite Hc. cbn [app length]. now rewrite IH.
Qed.



(** A name of at most 500 characters fits the writer's buffer. *)
Lemma serializeTypeName_short (typeName : string) :
  (String.length typeName <= 500)%nat ->
  serializeTypeName typeName
  = Returned
      (uleb_short (N.of_nat (length (TextEncoder_encode typeName)))
       ++ TextEncoder_encode typeName).
Proof.
  intros Hlen. unfold serializeTypeName, bcs_ser_vector_u8, BCS_WRITER_SIZE.
  pose proof (TextEncoder_encode_length typeName) as Hb.
  rewrite ulebEncode_short by lia.
  pose proof (uleb_short_length
                (N.of_nat (length (TextEncoder_encode typeName)))) as Hu.
  destruct (Nat.ltb_spec 1024
              (length (uleb_short
                         (N.of_nat (length (TextEncoder_encode typeName)))
                       ++ TextEncoder_encode typeName))) as [Hbig|_];
    [|reflexivity].
  rewrite length_app in Hbig. lia.
Qed.

Lemma String_eqb_neq (s1 s2 : string) : s1 <> s2 -> String.eqb s1 s2 = false.
Proof. intros H. now apply String.eqb_neq. Qed.

(** What [isSortedTypes] computes on two different names that fit the
    buffer. *)
Lemma isSortedTypes_short (typeX typeY : string) :
  typeX <> typeY ->
  (String.length typeX <= 500)%nat -> (String.length typeY <= 500)%nat ->
  isSortedTypes typeX typeY
  = Returned
      (compareByteArrays
         (uleb_short (N.of_nat (length (TextEncoder_encode typeX)))
          ++ TextEncoder_encode typeX)
         (uleb_short (N.of_nat (length (TextEncoder_encode typeY)))
          ++ TextEncoder_encode typeY)
       =? LESS_THAN).
Proof.
  intros Hne Hx Hy. unfold isSortedTypes.
  rewrite String_eqb_neq by assumption.
  now rewrite !serializeTypeName_short by assumption.
Qed.









(** X21. The order of coin types is by length first.  For two names of 7-bit
    characters shorter than 128, the serialized form starts with the length,
    so the shorter name is the sorted-first one whatever the characters are;
    only names of equal length are compared character by character. *)
Theorem isSortedTypes_shorter_first (typeX typeY : string) :
  is7bit typeX = true -> is7bit typeY = true ->
  (String.length typeY < 128)%nat ->
  ((String.length typeX < String.length typeY)%nat ->
   isSortedTypes typeX typeY = Returned true /\
   orderType typeX typeY = Returned (typeX, typeY)) /\
  (String.length typeX = String.length typeY -> typeX <> typeY ->
   isSortedTypes typeX typeY
   = Returned (compareByteArrays
                 (TextEncoder_encode typeX) (TextEncoder_encode typeY)
               =? LESS_THAN)).
Proof.
  intros H7x H7y Hy.
  pose proof (TextEncoder_encode_7bit typeX H7x) as Lx.
  pose proof (TextEncoder_encode_7bit typeY H7y) as Ly.
  split.
  - intros Hlt.
    assert (Hne : typeX <> typeY) by (intros ->; lia).
    assert (Hs : isSortedTypes typeX typeY = Returned true).
    { rewrite isSortedTypes_short by (try assumption; lia).
      rewrite Lx, Ly. unfold uleb_short.
      destruct (N.ltb_spec (N.of_nat (String.length typeX)) 128); [|lia].
      destruct (N.ltb_spec (N.of_nat (String.length typeY)) 128); [|lia].
      cbn [app compareByteArrays].
      destruct (N.ltb_spec (N.of_nat (String.length typeX))
                           (N.of_nat (String.length typeY))); [|lia].
      reflexivity. }
    split; [exact Hs|]. unfold orderType. now rewrite Hs.
  - intros Heq Hne.
    rewrite isSortedTypes_short by (try assumption; lia).
    rewrite Lx, Ly, Heq. unfold uleb_short.
    destruct (N.ltb_spec (N.of_nat (String.length typeY)) 128); [|lia].
    cbn [app compareByteArrays]. now rewrite N.ltb_irrefl.
Qed.

Lemma isSortedTypes_shorter_first_witness :
  is7bit "0x789::coin::BTC" = true /\ is7bit "0x456::coin::USDC" = true /\
  isSortedTypes "0x789::coin::BTC" "0x456::coin::USDC" = Returned true /\
  orderType "0x789::coin::BTC" "0x456::coin::USDC"
  = Returned ("0x789::coin::BTC"%string, "0x456::coin::USDC"%string).
Proof.
  assert (Hx : is7bit "0x789::coin::BTC" = true) by reflexivity.
  assert (Hy : is7bit "0x456::coin::USDC" = true) by reflexivity.
  split; [exact Hx|]. split; [exact Hy|].
  destruct (isSortedTypes_shorter_first
              "0x789::coin::BTC" "0x456::coin::USDC" Hx Hy)
    as (Hshort & _); [cbn; lia|].
  apply Hshort. cbn. lia.
Defined.

(** ** utils: addresses *)

Lemma substring_0_app (a b : string) :
  String.substring 0 (String.length a) (String.append a b) = a.
Proof.
  induction a as [|c a IH]; cbn [String.length String.append String.substring].
  - destruct b; reflexivity.
  - now rewrite IH.
Qed.

Lemma substring_0_length (n : nat) (s : string) :
  (String.length (String.substring 0 n s) <= n)%nat.
Proof.
  revert s. induction n as [|n IH]; intros [|c s];
    cbn [String.substring String.length]; try lia.
  specialize (IH s). lia.
Qed.

Lemma substring_0_all (s : string) :
  String.substring 0 (String.length s) s = s.
Proof.
  induction s as [|c s IH]; cbn [String.length String.substring];
    [reflexivity|now rewrite IH].
Qed.

Lemma prefix_empty (s : string) : String.prefix "" s = true.
Proof. destruct s; reflexivity. Qed.

Lemma startsWith_BFC_app (hex rest : string) :
  (3 <= String.length hex)%nat ->
  startsWith (String.append hex rest) "BFC" = startsWith hex "BFC".
Proof.
  destruct hex as [|c1 [|c2 [|c3 hex]]]; cbn [String.length]; try lia.
  intros _. unfold startsWith. cbn [String.append String.prefix].
  destruct (ascii_dec "B" c1); [|reflexivity].
  destruct (ascii_dec "F" c2); [|reflexivity].
  destruct (ascii_dec "C" c3); [|reflexivity].
  now rewrite !prefix_empty.
Qed.

(** X22. [normalizeAddress] keeps the 64 characters that follow an optional
    "BFC" prefix and puts "0x" in front: whatever comes after them (a
    checksum) is dropped, and the result never has more than 66 characters. *)
Theorem normalizeAddress_keeps_64 (hex rest : string) :
  String.length hex = 64%nat ->
  normalizeAddress (String.append "BFC" (String.append hex rest))
  = String.append "0x" hex /\
  (startsWith hex "BFC" = false ->
   normalizeAddress (String.append hex rest) = String.append "0x" hex) /\
  (forall address : string,
     (String.length (normalizeAddress address) <= 66)%nat).
Proof.
  intros Hlen. split; [|split].
  - unfold normalizeAddress, startsWith, sliceFrom, slice.
    cbn [String.append String.prefix]. 
    destruct (ascii_dec "B" "B") as [_|Hn]; [|now contradiction Hn].
    destruct (ascii_dec "F" "F") as [_|Hn]; [|now contradiction Hn].
    destruct (ascii_dec "C" "C") as [_|Hn]; [|now contradiction Hn].
    rewrite prefix_empty.
    cbn [String.length Nat.sub String.substring].
    rewrite Nat.sub_0_r, substring_0_all.
    rewrite <- Hlen. now rewrite substring_0_app.
  - intros Hno. unfold normalizeAddress.
    rewrite startsWith_BFC_app by lia. rewrite Hno.
    unfold slice. change (64 - 0)%nat with 64%nat. rewrite <- Hlen.
    now rewrite substring_0_app.
  - intros address. unfold normalizeAddress, slice.
    cbn [String.append String.length].
    pose proof (substring_0_length (64 - 0)
                  (if startsWith address "BFC" then sliceFrom address 3
                   else address)) as Hs.
    change (64 - 0)%nat with 64%nat in *. lia.
Qed.

Lemma normalizeAddress_keeps_64_witness :
  normalizeAddress
    "BFC00112233445566778899aabbccddeeff00112233445566778899aabbccddeeff1a2b"
  = "0x00112233445566778899aabbccddeeff00112233445566778899aabbccddeeff"%string.
Proof.
  exact (proj1 (normalizeAddress_keeps_64
                  "00112233445566778899aabbccddeeff00112233445566778899aabbccddeeff"
                  "1a2b" eq_refl)).
Defined.
